(** * Paralytics: [CategoricalGrouper] of [paralytics/column_parsing.py]

    A shallow embedding of the sparse-category grouping transformer and of
    the part of pandas it calls, followed by the properties its
    specification states.

    - A pandas [DataFrame] is an ordered list of named columns plus a row
      count; a column ([Series]) is a list of cells, [None] standing for a
      missing value (NaN), and carries its list of categories when its dtype
      is ['category'].
    - Frequencies, the running [tracker] and [percentile_thresh] are IEEE
      binary64 numbers, as numpy's [float64] and Python's [float] are: they
      are Rocq's primitive floats, so the cumulative walk rounds exactly as
      the Python code does.
    - [fit] mutates [self]; it is written in a state-and-exception monad
      whose state is the instance, so that an exception leaves the
      attributes assigned so far.  [transform] works on a copy of its input
      and only reads [self]; it is written in the exception monad.
    - pandas behaves as the version the source was written for:
      [cat.add_categories] and [cat.remove_categories] with [inplace=True]
      update the column held by the frame, [value_counts] lists every
      category of a categorical column (also those that do not occur), and
      an assignment of a value outside the categories is refused.  The order
      [value_counts] gives to values of equal count is not fixed by pandas;
      the embedding keeps them in the order they came in. *)

From Stdlib Require Import ZArith Lia Floats Uint63 Ascii String.
From stdpp Require Import base option list strings gmap.

Local Open Scope string_scope.
Local Open Scope list_scope.

(** ** Python values *)

(** A category label (a cell value that is not missing): the source
    documents [new_cat] as "string or int". *)
Inductive label :=
  | LStr (s : string)
  | LInt (z : Z).

#[global] Instance label_eq_dec : EqDecision label.
Proof. solve_decision. Defined.

(** A cell; [None] is NaN. *)
Definition cell := option label.

(** Built-in exceptions the code raises or lets through. *)
Inductive exn :=
  | AssertionError (msg : string)
  | RuntimeError (msg : string)
  | ValueError (msg : string)
  | KeyError (key : string)
  | IndexError (msg : string)
  | AttributeError (msg : string).

Inductive result (A : Type) :=
  | Ok (a : A)
  | Raise (e : exn).
Arguments Ok {A} a.
Arguments Raise {A} e.

Definition rbind {A B} (r : result A) (k : A -> result B) : result B :=
  match r with
  | Ok a => k a
  | Raise e => Raise e
  end.

Declare Scope result_scope.
Delimit Scope result_scope with result.
Notation "x <- r ;; k" := (rbind r (fun x => k))
  (at level 100, r at next level, right associativity) : result_scope.
Local Open Scope result_scope.

(** [assert cond, msg] *)
Definition py_assert (cond : bool) (msg : string) : result unit :=
  if cond then Ok tt else Raise (AssertionError msg).

(** ** pandas *)

Record Series := mkSeries {
  name : string;
  (** [Some cats] when the dtype is 'category' (its [cat.categories]),
      [None] for any other dtype. *)
  categories : option (list label);
  values : list cell;
}.

Record DataFrame := mkFrame {
  columns : list Series;
  (** [len(X)] *)
  nrows : nat;
}.

(** What a caller may pass where a DataFrame is expected. *)
Inductive py_frame_arg :=
  | PyFrame (X : DataFrame)
  | PyNotFrame.

(** What a caller may pass as [include_cols] / [exclude_cols]. *)
Inductive py_list_arg :=
  | PyNone
  | PyList (l : list string)
  | PyNotList.

(** [X.columns] *)
Definition col_names (X : DataFrame) : list string := map name (columns X).

(** [s.dtype.name == 'category'] *)
Definition is_category (s : Series) : bool :=
  match categories s with
  | Some _ => true
  | None => false
  end.

(** [X.select_dtypes('category').columns.tolist()] *)
Definition select_dtypes_category (X : DataFrame) : list string :=
  map name (filter (fun s => is_category s = true) (columns X)).

(** [X[col]] *)
Fixpoint lookup_col (cols : list Series) (col : string) : option Series :=
  match cols with
  | [] => None
  | s :: rest => if decide (name s = col) then Some s else lookup_col rest col
  end.

Definition df_getitem (X : DataFrame) (col : string) : result Series :=
  match lookup_col (columns X) col with
  | Some s => Ok s
  | None => Raise (KeyError col)
  end.

(** Writing a column of [X] back under its name. *)
Fixpoint replace_col (cols : list Series) (col : string) (s' : Series) : list Series :=
  match cols with
  | [] => []
  | s :: rest =>
      if decide (name s = col) then s' :: rest else s :: replace_col rest col s'
  end.

Definition df_setcol (X : DataFrame) (col : string) (s' : Series) : DataFrame :=
  mkFrame (replace_col (columns X) col s') (nrows X).

(** ** The estimator *)

Record CategoricalGrouper := mkGrouper {
  method : string;
  percentile_thresh : float;
  new_cat : label;
  include_cols : py_list_arg;
  exclude_cols : py_list_arg;
  (** The two fitted attributes; [None] while the attribute does not exist. *)
  cat_cols_ : option (list string);
  imp_cats_ : option (gmap string (list label));
}.

(** [CategoricalGrouper(method, percentile_thresh, new_cat, include_cols,
    exclude_cols)]: [__init__] copies its arguments onto the instance and
    creates no other attribute. *)
Definition init (method : string) (percentile_thresh : float) (new_cat : label)
    (include_cols exclude_cols : py_list_arg) : CategoricalGrouper :=
  mkGrouper method percentile_thresh new_cat include_cols exclude_cols None None.

Definition msg_include : string :=
  "Columns to include must be given as an instance of a list!".
Definition msg_exclude : string :=
  "Columns to exclude must be given as an instance of a list!".

(** [CategoricalGrouper._cat_cols_selection(X, include, exclude)] *)
Definition _cat_cols_selection (X : DataFrame) (include exclude : py_list_arg)
  : result (list string) :=
  let cat_cols := select_dtypes_category X in
  cat_cols <-
    match include with
    | PyNone => Ok cat_cols
    | PyList include =>
        Ok (filter (fun col => col ∈ cat_cols \/ col ∈ include) (col_names X))
    | PyNotList => Raise (AssertionError msg_include)
    end ;;
  match exclude with
  | PyNone => Ok cat_cols
  | PyList exclude => Ok (filter (fun col => col ∉ exclude) cat_cols)
  | PyNotList => Raise (AssertionError msg_exclude)
  end.

(** ** [Series.value_counts(normalize=True)] *)

(** Number of cells holding [v]. *)
Definition count_value (v : label) (vals : list cell) : nat :=
  length (filter (fun c => c = Some v) vals).

(** The distinct non-missing values, in order of first appearance (the
    order pandas' hash table yields them in). *)
Fixpoint pd_unique (vals : list cell) : list label :=
  match vals with
  | [] => []
  | None :: rest => pd_unique rest
  | Some v :: rest => v :: filter (fun w => w <> v) (pd_unique rest)
  end.

(** [sort_values(ascending=False)] on the counts: a stable insertion sort,
    values of equal count staying in the order they came in. *)
Fixpoint insert_desc (x : label * nat) (l : list (label * nat)) : list (label * nat) :=
  match l with
  | [] => [x]
  | y :: rest =>
      if (snd x <? snd y)%nat then y :: insert_desc x rest else x :: y :: rest
  end.

Definition sort_desc (l : list (label * nat)) : list (label * nat) :=
  foldr insert_desc [] l.

(** A count as a float64. *)
Definition float_of_nat (n : nat) : float :=
  PrimFloat.of_uint63 (Uint63.of_Z (Z.of_nat n)).

(** The keys counted: every category of a categorical column, used or not;
    the values observed in any other column.  NaN is dropped. *)
Definition counted_keys (s : Series) : list label :=
  match categories s with
  | Some cats => cats
  | None => pd_unique (values s)
  end.

Definition value_counts (s : Series) : list (label * nat) :=
  sort_desc (map (fun v => (v, count_value v (values s))) (counted_keys s)).

(** With [normalize=True] each count is divided by [float(counts.sum())]. *)
Definition value_counts_normalize (s : Series) : list (label * float) :=
  let counts := value_counts s in
  let total := float_of_nat (sum_list (map snd counts)) in
  map (fun vc => (fst vc, (float_of_nat (snd vc) / total)%float)) counts.

(** ** [fit] *)

Definition msg_iloc : string := "single positional indexer is out-of-bounds".

(** The cumulative walk
<<
    while tracker < 1 - self.percentile_thresh:
        tracker += sorted_series.iloc[i]
        i += 1
>>
    [rest] is [sorted_series.iloc[i:]]: reading [iloc[i]] past the end
    raises [IndexError].  The result is the final [i]. *)
Fixpoint walk (limit : float) (rest : list float) (tracker : float) (i : nat)
  : result nat :=
  if (tracker <? limit)%float then
    match rest with
    | [] => Raise (IndexError msg_iloc)
    | f :: rest' => walk limit rest' (tracker + f)%float (S i)
    end
  else Ok i.

(** [sorted_series.index[i:].tolist()] after the walk: the candidate sparse
    values of a column. *)
Definition sparse_candidates (thresh : float) (s : Series) : result (list label) :=
  let sorted_series := value_counts_normalize s in
  i <- walk (1 - thresh)%float (map snd sorted_series) 0%float 0 ;;
  Ok (drop i (map fst sorted_series)).

(** What the loop body stores under [imp_cats_[col]]. *)
Definition recorded_sparse (sparse_cats : list label) : list label :=
  if (1 <? length sparse_cats)%nat then sparse_cats else [].

(** The state-and-exception monad of methods that mutate [self]. *)
Definition M (A : Type) : Type := CategoricalGrouper -> result A * CategoricalGrouper.

Definition mret {A} (a : A) : M A := fun self => (Ok a, self).

Definition mbind {A B} (m : M A) (k : A -> M B) : M B :=
  fun self =>
    match m self with
    | (Ok a, self') => k a self'
    | (Raise e, self') => (Raise e, self')
    end.

Definition lift {A} (r : result A) : M A := fun self => (r, self).

Definition get_self : M CategoricalGrouper := fun self => (Ok self, self).

Declare Scope method_scope.
Delimit Scope method_scope with M.
Notation "x <- m ;; k" := (mbind m (fun x => k))
  (at level 100, m at next level, right associativity) : method_scope.

(** The instance after [self.cat_cols_ = cols] and after
    [self.imp_cats_ = d]. *)
Definition update_cat_cols_ (cols : list string) (self : CategoricalGrouper)
  : CategoricalGrouper :=
  mkGrouper (method self) (percentile_thresh self) (new_cat self)
    (include_cols self) (exclude_cols self) (Some cols) (imp_cats_ self).

Definition update_imp_cats_ (d : gmap string (list label)) (self : CategoricalGrouper)
  : CategoricalGrouper :=
  mkGrouper (method self) (percentile_thresh self) (new_cat self)
    (include_cols self) (exclude_cols self) (cat_cols_ self) (Some d).

Definition set_cat_cols_ (cols : list string) : M unit :=
  fun self => (Ok tt, update_cat_cols_ cols self).

Definition set_imp_cats_ (d : gmap string (list label)) : M unit :=
  fun self => (Ok tt, update_imp_cats_ d self).

Definition msg_attr (attr : string) : string :=
  "'CategoricalGrouper' object has no attribute '" +:+ attr +:+ "'".

(** [self.imp_cats_] and [self.cat_cols_] *)
Definition get_imp_cats_ (self : CategoricalGrouper) : result (gmap string (list label)) :=
  match imp_cats_ self with
  | Some d => Ok d
  | None => Raise (AttributeError (msg_attr "imp_cats_"))
  end.

Definition get_cat_cols_ (self : CategoricalGrouper) : result (list string) :=
  match cat_cols_ self with
  | Some cols => Ok cols
  | None => Raise (AttributeError (msg_attr "cat_cols_"))
  end.

(** [self.imp_cats_[col] = v]: the dictionary held by [self] is updated
    in place. *)
Definition imp_cats_setitem (col : string) (v : list label) : M unit :=
  (self <- get_self ;;
   d <- lift (get_imp_cats_ self) ;;
   set_imp_cats_ (<[col := v]> d))%M.

(** The body of [for col in self.cat_cols_] in [fit]. *)
Definition fit_col (X : DataFrame) (col : string) : M unit :=
  (self <- get_self ;;
   s <- lift (df_getitem X col) ;;
   sparse_cats <- lift (sparse_candidates (percentile_thresh self) s) ;;
   imp_cats_setitem col (recorded_sparse sparse_cats))%M.

Fixpoint for_each {A} (body : A -> M unit) (l : list A) : M unit :=
  match l with
  | [] => mret tt
  | a :: rest => (_ <- body a ;; for_each body rest)%M
  end.

Definition msg_frame : string := "Input must be an instance of pandas.DataFrame()!".
Definition msg_empty : string := "Input data can not be empty!".

(** [CategoricalGrouper.fit(self, X)] *)
Definition fit (X : py_frame_arg) : M unit :=
  match X with
  | PyNotFrame => lift (Raise (AssertionError msg_frame))
  | PyFrame X =>
      (_ <- lift (py_assert (0 <? nrows X)%nat msg_empty) ;;
       self <- get_self ;;
       cols <- lift (_cat_cols_selection X (include_cols self) (exclude_cols self)) ;;
       _ <- set_cat_cols_ cols ;;
       _ <- set_imp_cats_ ∅ ;;
       if decide (method self = "freq")
       then for_each (fit_col X) cols
       else mret tt)%M
  end.

(** ** [transform] *)

(** [s.isin(imp)]: NaN is in no list of labels. *)
Definition isin (imp : list label) (c : cell) : bool :=
  match c with
  | Some v => bool_decide (v ∈ imp)
  | None => false
  end.

Definition dquote : string := String (ascii_of_nat 34) EmptyString.
Definition newline : string := String (ascii_of_nat 10) EmptyString.

Definition msg_new_cat : string :=
  "You need to specify different " +:+ dquote +:+ "new_cat" +:+ dquote +:+
  " value, because the current one is already included in the category names.".
Definition msg_add_categories : string :=
  "new categories must not include old categories".
Definition msg_setitem : string :=
  "Cannot setitem on a Categorical with a new category, set the categories first".
Definition msg_not_fitted : string :=
  "Could not find the attribute." +:+ newline +:+
  "Fitting is necessary before you do the transformation.".
Definition msg_frame_transform : string :=
  "Input must be an instance of pandas.DataFrame()".

(** [s.cat.add_categories(v, inplace=True)] on the categories of [s]. *)
Definition add_categories (cats : list label) (v : label) : result (list label) :=
  if decide (v ∈ cats) then Raise (ValueError msg_add_categories)
  else Ok (cats ++ [v]).

(** [s.cat.remove_categories(removals, inplace=True)]: the removed categories
    leave the domain and the cells that held them become NaN. *)
Definition remove_categories (removals cats : list label) (vals : list cell)
  : list label * list cell :=
  (filter (fun v => v ∉ removals) cats,
   map (fun c => if isin removals c then None else c) vals).

(** [X_new.loc[row_indices, col] = v] on the column: a categorical column
    refuses a value outside its categories. *)
Definition loc_setitem (row_indices : list bool) (v : label) (s : Series)
  : result Series :=
  match categories s with
  | Some cats =>
      if decide (v ∈ cats)
      then Ok (mkSeries (name s) (categories s)
                 (zip_with (fun (b : bool) c => if b then Some v else c)
                    row_indices (values s)))
      else Raise (ValueError msg_setitem)
  | None =>
      Ok (mkSeries (name s) (categories s)
            (zip_with (fun (b : bool) c => if b then Some v else c)
               row_indices (values s)))
  end.

(** [self.imp_cats_[col]] *)
Definition dict_getitem (d : gmap string (list label)) (col : string)
  : result (list label) :=
  match d !! col with
  | Some v => Ok v
  | None => Raise (KeyError col)
  end.

(** What one iteration of [for col in self.cat_cols_] in [transform] does to
    the column [s = X_new[col]], [imp] being [self.imp_cats_[col]]. *)
Definition rewrite_column (imp : list label) (new_cat : label) (s : Series)
  : result Series :=
  let row_indices := map (isin imp) (values s) in
  s <-
    match categories s with
    | Some cats =>
        cats <-
          match add_categories cats new_cat with
          | Raise (ValueError _) => Raise (ValueError msg_new_cat)
          | r => r
          end ;;
        (* list(set(imp).intersection(categories)) *)
        let cat_removals := filter (fun v => v ∈ cats) imp in
        let '(cats, vals) := remove_categories cat_removals cats (values s) in
        Ok (mkSeries (name s) (Some cats) vals)
    | None => Ok s
    end ;;
  loc_setitem row_indices new_cat s.

(** The loop body: [X_new[col]] is evaluated before [self.imp_cats_[col]],
    and the column is updated inside [X_new]. *)
Definition transform_col (imp_cats : gmap string (list label)) (new_cat : label)
    (X_new : DataFrame) (col : string) : result DataFrame :=
  s <- df_getitem X_new col ;;
  imp <- dict_getitem imp_cats col ;;
  s <- rewrite_column imp new_cat s ;;
  Ok (df_setcol X_new col s).

Fixpoint transform_loop (imp_cats : gmap string (list label)) (new_cat : label)
    (cols : list string) (X_new : DataFrame) : result DataFrame :=
  match cols with
  | [] => Ok X_new
  | col :: rest =>
      X_new <- transform_col imp_cats new_cat X_new col ;;
      transform_loop imp_cats new_cat rest X_new
  end.

(** [CategoricalGrouper.transform(self, X)] *)
Definition transform (self : CategoricalGrouper) (X : py_frame_arg)
  : result DataFrame :=
  match (imp <- get_imp_cats_ self ;; cols <- get_cat_cols_ self ;; Ok (imp, cols)) with
  | Raise (AttributeError _) => Raise (RuntimeError msg_not_fitted)
  | Raise e => Raise e
  | Ok (imp_cats, cat_cols) =>
      match X with
      | PyNotFrame => Raise (AssertionError msg_frame_transform)
      | PyFrame X =>
          (* X_new = X.copy() *)
          transform_loop imp_cats (new_cat self) cat_cols X
      end
  end.

(** ** Definitions the statements use *)

(** [col] is named in an [include_cols] / [exclude_cols] argument that was
    provided. *)
Definition listed (a : py_list_arg) (col : string) : Prop :=
  match a with
  | PyList l => col ∈ l
  | _ => False
  end.

#[global] Instance listed_dec a col : Decision (listed a col).
Proof. destruct a; simpl; apply _. Defined.

(** The selection as the specification words it: the columns of the
    dataset, in the dataset's order, that are declared categorical or
    listed in [include_cols], minus those listed in [exclude_cols]. *)
Definition selected_columns (X : DataFrame) (include exclude : py_list_arg)
  : list string :=
  map name
    (filter (fun s => (is_category s = true \/ listed include (name s))
                      /\ ~ listed exclude (name s))
       (columns X)).

(** The cell-level effect of grouping: a cell holding a sparse value takes
    the sentinel, any other cell is kept. *)
Definition group_cell (imp : list label) (new_cat : label) (c : cell) : cell :=
  if isin imp c then Some new_cat else c.

(** The instance with another threshold. *)
Definition with_thresh (t : float) (self : CategoricalGrouper) : CategoricalGrouper :=
  mkGrouper (method self) t (new_cat self) (include_cols self) (exclude_cols self)
    (cat_cols_ self) (imp_cats_ self).

(** Some selected column of [X] has dtype 'category'. *)
Definition selects_category (cols : list string) (X : DataFrame) : Prop :=
  exists col s, col ∈ cols /\ lookup_col (columns X) col = Some s
                /\ is_category s = true.

(** Two instances with the same constructor arguments. *)
Definition same_config (a b : CategoricalGrouper) : Prop :=
  method a = method b /\ percentile_thresh a = percentile_thresh b /\
  new_cat a = new_cat b /\ include_cols a = include_cols b /\
  exclude_cols a = exclude_cols b.

(** [col] names a column of [X] whose dtype is 'category'. *)
Definition col_is_category (X : DataFrame) (col : string) : bool :=
  match lookup_col (columns X) col with
  | Some s => is_category s
  | None => false
  end.

#[global] Instance selects_category_dec cols X : Decision (selects_category cols X).
Proof.
  unfold selects_category.
  destruct (existsb (col_is_category X) cols) eqn:E; [left|right].
  - apply existsb_exists in E as (col & Hcol & Hs). unfold col_is_category in Hs.
    destruct (lookup_col (columns X) col) as [s|] eqn:Hl; [|done].
    exists col, s. by rewrite list_elem_of_In.
  - intros (col & s & Hcol & Hl & Hs).
    assert (existsb (col_is_category X) cols = true); [|congruence].
    apply existsb_exists. exists col. rewrite <- list_elem_of_In.
    unfold col_is_category. by rewrite Hl.
Defined.

(** Entry by entry, the lists recorded in [d2] are at least as long as those
    recorded in [d1], and the two dictionaries have the same keys. *)
Definition no_larger (d1 d2 : gmap string (list label)) : Prop :=
  forall col,
    match d1 !! col, d2 !! col with
    | Some l1, Some l2 => (length l1 <= length l2)%nat
    | None, None => True
    | _, _ => False
    end.

(** ** Example data *)

Definition red : label := LStr "red".
Definition blue : label := LStr "blue".
Definition green : label := LStr "green".
Definition yellow : label := LStr "yellow".
Definition purple : label := LStr "purple".
Definition other : label := LStr "Other".

(** 100 rows: 70 red, 20 blue, 5 green, 3 yellow, 2 purple. *)
Definition color_rows : list cell :=
  replicate 70 (Some red) ++ replicate 20 (Some blue) ++ replicate 5 (Some green)
  ++ replicate 3 (Some yellow) ++ replicate 2 (Some purple).

(** A frame with the single categorical column 'color' holding [rows]; the
    categories are those pandas infers for these values. *)
Definition color_column (rows : list cell) : Series :=
  mkSeries "color" (Some [blue; green; purple; red; yellow]) rows.

Definition color_frame (rows : list cell) : DataFrame :=
  mkFrame [color_column rows] 100.

(** [0.05] as the float64 Python reads it. *)
Definition thresh_default : float := 0x1.999999999999ap-5%float.

(** [CategoricalGrouper()] with its default arguments. *)
Definition default_grouper : CategoricalGrouper :=
  init "freq" thresh_default other PyNone PyNone.

Definition color_fitted : CategoricalGrouper :=
  mkGrouper "freq" thresh_default other PyNone PyNone
    (Some ["color"]) (Some {[ "color" := [yellow; purple] ]}).

(** The rows after grouping: yellow and purple become 'Other'. *)
Definition color_grouped (rows : list cell) : list cell :=
  map (fun c => if decide (c = Some yellow \/ c = Some purple) then Some other else c)
    rows.

Definition color_frame_out (rows : list cell) : DataFrame :=
  mkFrame [mkSeries "color" (Some [blue; green; red; other]) (color_grouped rows)] 100.

(** A categorical column with no rare value: 3 yes, 1 no. *)
Definition yes : label := LStr "yes".
Definition no : label := LStr "no".

Definition flag_column : Series :=
  mkSeries "flag" (Some [no; yes]) [Some yes; Some yes; Some no; Some yes].

Definition flag_frame : DataFrame := mkFrame [flag_column] 4.

Definition flag_fitted : CategoricalGrouper :=
  mkGrouper "freq" thresh_default other PyNone PyNone
    (Some ["flag"]) (Some {[ "flag" := [] ]}).

Definition flag_frame_out : DataFrame :=
  mkFrame [mkSeries "flag" (Some [no; yes; other])
             [Some yes; Some yes; Some no; Some yes]] 4.

(** Two categorical columns, the domain of 'kind' already holding 'Other';
    and the same data without the column 'size'. *)
Definition size_column : Series :=
  mkSeries "size" (Some [LStr "M"; LStr "S"])
    [Some (LStr "S"); Some (LStr "S"); Some (LStr "M"); Some (LStr "S")].

Definition kind_column : Series :=
  mkSeries "kind" (Some [other; LStr "a"])
    [Some (LStr "a"); Some (LStr "a"); Some (LStr "a"); Some other].

Definition kinds_frame : DataFrame := mkFrame [size_column; kind_column] 4.
Definition kinds_only_frame : DataFrame := mkFrame [kind_column] 4.

Definition kinds_fitted : CategoricalGrouper :=
  mkGrouper "freq" thresh_default other PyNone PyNone
    (Some ["size"; "kind"]) (Some {[ "size" := []; "kind" := [] ]}).

(** An instance constructed with a method the code does not know. *)
Definition count_grouper : CategoricalGrouper :=
  init "count" thresh_default other PyNone PyNone.

Definition count_fitted : CategoricalGrouper :=
  mkGrouper "count" thresh_default other PyNone PyNone (Some ["kind"]) (Some ∅).

(** [kinds_frame] once the loop of [transform] has rewritten 'size'. *)
Definition kinds_frame_size_done : DataFrame :=
  mkFrame [mkSeries "size" (Some [LStr "M"; LStr "S"; other])
             [Some (LStr "S"); Some (LStr "S"); Some (LStr "M"); Some (LStr "S")];
           kind_column] 4.

(** A text column (dtype object) selected through [include_cols], and a
    categorical column excluded through [exclude_cols]: 9 Rome, 2 Oslo,
    1 Lima. *)
Definition city_rows : list cell :=
  replicate 9 (Some (LStr "Rome")) ++ replicate 2 (Some (LStr "Oslo"))
  ++ [Some (LStr "Lima")].

Definition flag_rows : list cell :=
  replicate 8 (Some yes) ++ replicate 4 (Some no).

Definition city_frame : DataFrame :=
  mkFrame [mkSeries "city" None city_rows;
           mkSeries "flag" (Some [no; yes]) flag_rows] 12.

Definition city_grouper : CategoricalGrouper :=
  init "freq" 0.25%float other (PyList ["city"]) (PyList ["flag"]).

Definition city_fitted : CategoricalGrouper :=
  mkGrouper "freq" 0.25%float other (PyList ["city"]) (PyList ["flag"])
    (Some ["city"]) (Some {[ "city" := [LStr "Oslo"; LStr "Lima"] ]}).

Definition city_frame_out : DataFrame :=
  mkFrame [mkSeries "city" None
             (replicate 9 (Some (LStr "Rome")) ++ replicate 3 (Some other));
           mkSeries "flag" (Some [no; yes]) flag_rows] 12.

(** Ten values, each seen once, and an instance with threshold 0. *)
Definition digit_frame : DataFrame :=
  mkFrame [mkSeries "digit" None (map (fun n => Some (LInt (Z.of_nat n))) (seq 0 10))] 10.

Definition zero_grouper : CategoricalGrouper :=
  init "freq" 0%float other (PyList ["digit"]) PyNone.

(** Unfolds the monad of [fit] down to pairs of a result and an instance. *)
Ltac unfold_method :=
  unfold imp_cats_setitem, mbind, mret, lift, get_self, set_cat_cols_,
    set_imp_cats_, get_imp_cats_, py_assert.

(** ** The walk, step by step *)

(** [tracker] after the first [k] additions
    [tracker += sorted_series.iloc[j]], [j < k]. *)
Definition running_sum (tracker : float) (freqs : list float) (k : nat) : float :=
  foldl (fun a f => (a + f)%float) tracker (take k freqs).

(** ** The shape of a transformed column *)

(** How a column of the output relates to the column at the same place in
    the input. *)
Definition same_shape (cols : list string) (s s' : Series) : Prop :=
  name s' = name s
  /\ length (values s') = length (values s)
  /\ is_category s' = is_category s
  /\ (name s ∉ cols -> s' = s).

(** ** [ColumnSelector] *)

(** What [ColumnSelector.transform] raises.  The message of its [KeyError]
    is built from [list(set(self.columns) - set(X.columns))], whose order
    Python does not fix: the exception carries that set. *)
Inductive selector_exn :=
  | SelectorAssertionError (msg : string)
  | SelectorKeyError (missing : gset string).

Inductive selector_result :=
  | Selected (X : DataFrame)
  | SelectorRaise (e : selector_exn).

(** The columns of [X] that bear the name [n], in the order of [X]. *)
Definition columns_named (X : DataFrame) (n : string) : list Series :=
  filter (fun s => name s = n) (columns X).

(** [X[names]] for a list of names: for each name of the list in turn, the
    columns of that name, on the same rows; nothing when some name is not a
    column of [X] (pandas raises [KeyError]). *)
Definition df_getitem_list (X : DataFrame) (names : list string)
  : option DataFrame :=
  if decide (Forall (fun n => n ∈ col_names X) names)
  then Some (mkFrame (concat (map (columns_named X) names)) (nrows X))
  else None.

(** [set(self.columns) - set(X.columns)] *)
Definition missing_columns (names : list string) (X : DataFrame) : gset string :=
  list_to_set names ∖ list_to_set (col_names X).

(** [ColumnSelector(columns).transform(X)], [columns] a list of names. *)
Definition column_selector_transform (names : list string) (X : py_frame_arg)
  : selector_result :=
  match X with
  | PyNotFrame => SelectorRaise (SelectorAssertionError msg_frame_transform)
  | PyFrame X =>
      match df_getitem_list X names with
      | Some X' => Selected X'
      | None => SelectorRaise (SelectorKeyError (missing_columns names X))
      end
  end.

(** ** Order of [value_counts] *)

(** Counts in descending order. *)
Fixpoint sorted_desc (l : list (label * nat)) : Prop :=
  match l with
  | [] => True
  | x :: rest => Forall (fun y => (snd y <= snd x)%nat) rest /\ sorted_desc rest
  end.

(** The call returned (it did not raise). *)
Definition is_Ok {A} (r : result A) : Prop := exists a, r = Ok a.

(** ** Further example data *)

(** [city_frame] with its two columns in the other order. *)
Definition city_frame_swapped : DataFrame :=
  mkFrame [mkSeries "flag" (Some [no; yes]) flag_rows;
           mkSeries "city" None city_rows] 12.


(** ** Binary64 arithmetic: definitions for the proofs about the limit *)

(** Rounding of [N / 2 ^ k] to the nearest integer, ties to even. *)
Definition rne (N k : Z) : Z :=
  let q := (N / 2 ^ k)%Z in
  let rem := (N mod 2 ^ k)%Z in
  if ((2 ^ k <? 2 * rem) || ((2 ^ k =? 2 * rem) && Z.odd q))%Z then (q + 1)%Z else q.

(** [k] right shifts of [M]: the quotient, and where the remainder lies. *)
Definition shifted (M k : Z) (mrs : shr_record) : Prop :=
  (shr_m mrs = M / 2 ^ k
   /\ (shr_r mrs = true <-> 2 ^ k <= 2 * (M mod 2 ^ k))
   /\ (shr_s mrs = true <-> M mod 2 ^ k <> 0 /\ 2 * (M mod 2 ^ k) <> 2 ^ k))%Z.

(** The float 1.0 in [SpecFloat]'s representation. *)
Definition sf_one : spec_float := S754_finite false 4503599627370496 (-52).

(** * Properties *)

(** ** Column selection *)

Lemma elem_of_select_dtypes_category (X : DataFrame) (col : string) :
  col ∈ select_dtypes_category X <->
  exists s, s ∈ columns X /\ name s = col /\ is_category s = true.
Proof.
  unfold select_dtypes_category. rewrite list_elem_of_fmap. split.
  - intros (s & -> & Hs). apply list_elem_of_filter in Hs as [Hc Hs]. eauto.
  - intros (s & Hs & <- & Hc). exists s. split; [done|].
    apply list_elem_of_filter; done.
Qed.

(** In a frame whose column names are distinct, a name is among the
    category-typed names exactly when its column is category-typed. *)
Lemma category_name_iff (cols : list Series) (s : Series) :
  NoDup (map name cols) -> s ∈ cols ->
  (exists s', s' ∈ cols /\ name s' = name s /\ is_category s' = true) <->
  is_category s = true.
Proof.
  intros Hnd Hs. split; [|eauto].
  intros (s' & Hs' & Hn & Hc).
  apply list_elem_of_lookup in Hs as [i Hi], Hs' as [j Hj].
  assert (i = j) as ->.
  { apply (NoDup_lookup (map name cols) i j (name s) Hnd).
    - by rewrite list_lookup_fmap, Hi.
    - rewrite list_lookup_fmap, Hj. simpl. by rewrite Hn. }
  congruence.
Qed.

Lemma filter_map_name (P : string -> Prop) `{!forall x, Decision (P x)}
    (cols : list Series) :
  filter P (map name cols) = map name (filter (fun s => P (name s)) cols).
Proof.
  induction cols as [|s cols IH]; [done|].
  simpl. rewrite !filter_cons. destruct (decide (P (name s))); simpl; by rewrite IH.
Qed.

Lemma filter_filter_and {A} (P Q : A -> Prop) `{!forall x, Decision (P x)}
    `{!forall x, Decision (Q x)} (l : list A) :
  filter Q (filter P l) = filter (fun x => P x /\ Q x) l.
Proof.
  induction l as [|x l IH]; [done|].
  rewrite !filter_cons.
  destruct (decide (P x)), (decide (P x /\ Q x)) as [[]|Hn];
    rewrite ?filter_cons; try destruct (decide (Q x)); try tauto;
    rewrite IH; try done.
Qed.

Lemma filter_ext_in {A} (P Q : A -> Prop) `{!forall x, Decision (P x)}
    `{!forall x, Decision (Q x)} (l : list A) :
  (forall x, x ∈ l -> P x <-> Q x) -> filter P l = filter Q l.
Proof.
  induction l as [|x l IH]; intros Hext; [done|].
  rewrite !filter_cons.
  destruct (decide (P x)) as [HP|HP], (decide (Q x)) as [HQ|HQ].
  - f_equal. apply IH. intros; apply Hext; by right.
  - exfalso. apply HQ. apply Hext; [left|done].
  - exfalso. apply HP. apply Hext; [left|done].
  - apply IH. intros; apply Hext; by right.
Qed.

Lemma cat_cols_selection_ok (X : DataFrame) (include exclude : py_list_arg) :
  NoDup (col_names X) ->
  include <> PyNotList -> exclude <> PyNotList ->
  _cat_cols_selection X include exclude = Ok (selected_columns X include exclude).
Proof.
  intros Hnd Hi He. unfold _cat_cols_selection, selected_columns, col_names in *.
  assert (Hinc :
    match include with
    | PyNone => Ok (select_dtypes_category X)
    | PyList l =>
        Ok (filter (fun col => col ∈ select_dtypes_category X \/ col ∈ l)
              (map name (columns X)))
    | PyNotList => Raise (AssertionError msg_include)
    end
    = Ok (map name (filter (fun s => is_category s = true \/ listed include (name s))
                      (columns X)))).
  { destruct include as [|l|]; [| |done].
    - unfold select_dtypes_category. do 2 f_equal.
      apply filter_ext_in. simpl. tauto.
    - rewrite filter_map_name. do 2 f_equal. apply filter_ext_in.
      intros s Hs. simpl. rewrite elem_of_select_dtypes_category.
      rewrite (category_name_iff _ _ Hnd Hs). tauto. }
  rewrite Hinc. simpl. clear Hinc.
  destruct exclude as [|l|]; [| |done].
  - do 2 f_equal. apply filter_ext_in. simpl. tauto.
  - rewrite filter_map_name, filter_filter_and. done.
Qed.

Lemma cat_cols_selection_not_list (X : DataFrame) (include exclude : py_list_arg) :
  include = PyNotList \/ exclude = PyNotList ->
  exists msg, _cat_cols_selection X include exclude = Raise (AssertionError msg).
Proof.
  unfold _cat_cols_selection.
  intros [-> | ->]; [by eexists|].
  destruct include; simpl; by eexists.
Qed.

(** ** [fit]: how the instance evolves *)

Lemma df_getitem_raise (X : DataFrame) (col : string) (e : exn) :
  df_getitem X col = Raise e -> e = KeyError col.
Proof. unfold df_getitem. destruct (lookup_col _ _); by inversion 1. Qed.

Lemma walk_raise (limit : float) (rest : list float) (tracker : float) (i : nat)
    (e : exn) :
  walk limit rest tracker i = Raise e -> e = IndexError msg_iloc.
Proof.
  revert tracker i. induction rest as [|f rest IH]; intros tracker i; simpl;
    destruct (tracker <? limit)%float; try by inversion 1.
  apply IH.
Qed.

Lemma sparse_candidates_raise (t : float) (s : Series) (e : exn) :
  sparse_candidates t s = Raise e -> e = IndexError msg_iloc.
Proof.
  unfold sparse_candidates.
  destruct (walk _ _ _ _) as [i|e'] eqn:Hw; simpl; inversion 1; subst.
  by apply walk_raise in Hw.
Qed.

Lemma fit_col_eq (X : DataFrame) (col : string) (self : CategoricalGrouper) :
  fit_col X col self =
  match df_getitem X col with
  | Raise e => (Raise e, self)
  | Ok s =>
      match sparse_candidates (percentile_thresh self) s with
      | Raise e => (Raise e, self)
      | Ok sparse_cats =>
          match imp_cats_ self with
          | None => (Raise (AttributeError (msg_attr "imp_cats_")), self)
          | Some d =>
              (Ok tt, update_imp_cats_ (<[col := recorded_sparse sparse_cats]> d) self)
          end
      end
  end.
Proof.
  unfold fit_col. unfold_method.
  destruct (df_getitem X col) as [s|e]; [|done].
  destruct (sparse_candidates _ s) as [c|e]; [|done].
  by destruct (imp_cats_ self).
Qed.

(** The loop of [fit] never touches the constructor arguments nor
    [cat_cols_], whether it ends normally or by an exception. *)
Lemma fit_loop_frame (X : DataFrame) (cols : list string) (self : CategoricalGrouper) :
  same_config self (for_each (fit_col X) cols self).2 /\
  cat_cols_ (for_each (fit_col X) cols self).2 = cat_cols_ self.
Proof.
  revert self. induction cols as [|col cols IH]; intros self; [done|].
  simpl. unfold mbind. rewrite fit_col_eq.
  destruct (df_getitem X col) as [s|e]; [|done].
  destruct (sparse_candidates _ s) as [c|e]; [|done].
  destruct (imp_cats_ self) as [d|]; [|done].
  destruct (IH (update_imp_cats_ (<[col:=recorded_sparse c]> d) self)) as [Hc Hcc].
  split; [|by rewrite Hcc].
  destruct Hc as (?&?&?&?&?). repeat split; simpl in *; congruence.
Qed.

(** [fit] on a non-empty frame, up to the loop. *)
Lemma fit_frame_eq (X : DataFrame) (self : CategoricalGrouper) :
  (0 < nrows X)%nat ->
  fit (PyFrame X) self =
  match _cat_cols_selection X (include_cols self) (exclude_cols self) with
  | Raise e => (Raise e, self)
  | Ok cols =>
      let self0 := update_imp_cats_ ∅ (update_cat_cols_ cols self) in
      if decide (method self = "freq")
      then for_each (fit_col X) cols self0
      else (Ok tt, self0)
  end.
Proof.
  intros Hn. unfold fit. unfold_method.
  apply Nat.ltb_lt in Hn. rewrite Hn.
  destruct (_cat_cols_selection _ _ _); [|done].
  by destruct (decide _).
Qed.

(** A failed assertion leaves the instance as it was. *)
Lemma fit_not_list (X : py_frame_arg) (self : CategoricalGrouper) :
  include_cols self = PyNotList \/ exclude_cols self = PyNotList ->
  exists msg, fit X self = (Raise (AssertionError msg), self).
Proof.
  intros Hbad. destruct X as [X|]; [|by eexists].
  unfold fit. unfold_method.
  destruct (0 <? nrows X)%nat; [|by eexists].
  destruct (cat_cols_selection_not_list X _ _ Hbad) as [msg ->]. by eexists.
Qed.

(** C8. Column selection contract.  On a non-empty dataset with distinct
    column names, [fit] records as [cat_cols_] the dataset's columns, in the
    dataset's order, that are category-typed or listed in [include_cols]
    (when given), minus those listed in [exclude_cols] (when given); this
    holds even when the frequency loop later raises.  Whatever the input, a
    non-list [include_cols] or [exclude_cols] makes [fit] raise an
    [AssertionError] and leaves the instance untouched. *)
Theorem fit_selects_columns (self : CategoricalGrouper) (X : DataFrame) :
  NoDup (col_names X) -> (0 < nrows X)%nat ->
  (include_cols self <> PyNotList -> exclude_cols self <> PyNotList ->
   cat_cols_ (fit (PyFrame X) self).2
   = Some (selected_columns X (include_cols self) (exclude_cols self)))
  /\ (include_cols self = PyNotList \/ exclude_cols self = PyNotList ->
      forall X' : py_frame_arg,
        exists msg, fit X' self = (Raise (AssertionError msg), self)).
Proof.
  intros Hnd Hn. split.
  - intros Hi He. rewrite (fit_frame_eq _ _ Hn).
    rewrite (cat_cols_selection_ok X _ _ Hnd Hi He). simpl.
    destruct (decide _); [|done].
    by rewrite (proj2 (fit_loop_frame _ _ _)).
  - intros Hbad X'. by apply fit_not_list.
Qed.

(** ** [transform] before [fit], and after a [fit] with an unknown method *)

(** C5. Fit-before-transform precondition.  On a freshly constructed
    instance, whatever the constructor arguments and whatever is passed as
    [X], [transform] raises the [RuntimeError] whose message ends with
    "Fitting is necessary before you do the transformation."; it returns no
    dataset. *)
Theorem transform_before_fit (m : string) (t : float) (nc : label)
    (inc exc : py_list_arg) (X : py_frame_arg) :
  transform (init m t nc inc exc) X = Raise (RuntimeError msg_not_fitted)
  /\ exists prefix,
       msg_not_fitted
       = prefix +:+ "Fitting is necessary before you do the transformation.".
Proof.
  split.
  - unfold transform, init, get_imp_cats_. reflexivity.
  - exists ("Could not find the attribute." +:+ newline). reflexivity.
Qed.

(** An assertion that fails in [fit] leaves a fresh instance unfitted, so
    [transform] still raises the same error afterwards. *)
Lemma transform_after_rejected_fit (m : string) (t : float) (nc : label)
    (inc exc : py_list_arg) (X X' : py_frame_arg) (msg : string)
    (self' : CategoricalGrouper) :
  fit X (init m t nc inc exc) = (Raise (AssertionError msg), self') ->
  transform self' X' = Raise (RuntimeError msg_not_fitted).
Proof.
  assert (Hfresh : forall r : result unit,
    (r, init m t nc inc exc) = (Raise (AssertionError msg), self') ->
    transform self' X' = Raise (RuntimeError msg_not_fitted)).
  { intros r Heq. by inversion Heq. }
  destruct X as [X|]; [|apply Hfresh].
  unfold fit. unfold_method.
  destruct (0 <? nrows X)%nat; [|apply Hfresh].
  destruct (_cat_cols_selection _ _ _) as [cols|e]; [|apply Hfresh].
  destruct (decide _); [|by inversion 1].
  generalize (update_imp_cats_ ∅ (update_cat_cols_ cols (init m t nc inc exc))).
  clear Hfresh.
  induction cols as [|col cols IH]; intros self; [by inversion 1|].
  simpl. unfold mbind. rewrite fit_col_eq.
  destruct (df_getitem X col) as [s|e1] eqn:Hget;
    [|apply df_getitem_raise in Hget as ->; by inversion 1].
  destruct (sparse_candidates _ _) as [c|e2] eqn:Hwalk;
    [|apply sparse_candidates_raise in Hwalk as ->; by inversion 1].
  destruct (imp_cats_ self); [|by inversion 1].
  apply IH.
Qed.

Lemma transform_loop_key_error (d : gmap string (list label)) (nc : label)
    (col : string) (cols : list string) (X : DataFrame) :
  d !! col = None ->
  transform_loop d nc (col :: cols) X = Raise (KeyError col).
Proof.
  intros Hd. simpl. unfold transform_col, df_getitem, dict_getitem.
  destruct (lookup_col (columns X) col); simpl; by rewrite ?Hd.
Qed.

(** C10. Unrecognised method.  With [method] other than 'freq', [fit] on a
    non-empty dataset (list or absent include/exclude arguments) succeeds,
    records the selected columns and leaves [imp_cats_] a dictionary with no
    key; if at least one column was selected, every later [transform] of a
    dataset raises [KeyError] on the first selected column. *)
Theorem unknown_method_transform_raises (self : CategoricalGrouper) (X : DataFrame) :
  method self <> "freq" -> (0 < nrows X)%nat ->
  include_cols self <> PyNotList -> exclude_cols self <> PyNotList ->
  exists self' cols,
    fit (PyFrame X) self = (Ok tt, self')
    /\ cat_cols_ self' = Some cols
    /\ imp_cats_ self' = Some ∅
    /\ forall col rest, cols = col :: rest ->
         forall X' : DataFrame,
           transform self' (PyFrame X') = Raise (KeyError col).
Proof.
  intros Hm Hn Hi He. rewrite (fit_frame_eq _ _ Hn).
  destruct (_cat_cols_selection X _ _) as [cols|e] eqn:Hsel.
  - simpl. destruct (decide _); [done|].
    eexists _, cols. repeat split.
    intros col rest -> X'. unfold transform. simpl.
    by apply transform_loop_key_error.
  - unfold _cat_cols_selection in Hsel.
    destruct (include_cols self), (exclude_cols self); done.
Qed.

(** * Binary64: [1 - percentile_thresh] does not increase with the threshold

    The comparison and the subtraction of primitive floats are specified by
    [SpecFloat]'s functions on sign, mantissa and exponent; the lemmas below
    evaluate [1 - t] on that specification for [t] in [[0, 1)]. *)

Module Binary64.

Local Open Scope Z_scope.

Lemma rne_zero (N : Z) : rne N 0 = N.
Proof.
  unfold rne. rewrite Z.pow_0_r, Z.div_1_r, Z.mod_1_r. done.
Qed.

Lemma rne_bounds (N k : Z) :
  0 <= k -> N / 2 ^ k <= rne N k <= N / 2 ^ k + 1.
Proof. intros Hk. unfold rne. case (_ || _)%bool; lia. Qed.

Lemma rne_mono (N1 N2 k : Z) :
  0 <= k -> N2 <= N1 -> rne N2 k <= rne N1 k.
Proof.
  intros Hk Hle.
  assert (HP : 0 < 2 ^ k) by (apply Z.pow_pos_nonneg; lia).
  pose proof (Z.div_le_mono N2 N1 (2 ^ k) HP Hle) as Hq.
  destruct (Z.eq_dec (N2 / 2 ^ k) (N1 / 2 ^ k)) as [Heq|Hne].
  - unfold rne. rewrite <- Heq.
    pose proof (Z.mod_eq N1 (2 ^ k)) as H1. pose proof (Z.mod_eq N2 (2 ^ k)) as H2.
    rewrite <- Heq in H1.
    assert (N2 mod 2 ^ k <= N1 mod 2 ^ k) by lia.
    destruct (Z.ltb_spec (2 ^ k) (2 * (N2 mod 2 ^ k)));
      destruct (Z.ltb_spec (2 ^ k) (2 * (N1 mod 2 ^ k)));
      destruct (Z.eqb_spec (2 ^ k) (2 * (N2 mod 2 ^ k)));
      destruct (Z.eqb_spec (2 ^ k) (2 * (N1 mod 2 ^ k)));
      simpl; try lia; destruct (Z.odd (N2 / 2 ^ k)); simpl; lia.
  - pose proof (rne_bounds N1 k Hk). pose proof (rne_bounds N2 k Hk). lia.
Qed.

Lemma rne_scale (N k j : Z) :
  0 <= k -> 0 <= j -> rne (N * 2 ^ j) (k + j) = rne N k.
Proof.
  intros Hk Hj. unfold rne.
  assert (HP : 0 < 2 ^ k) by (apply Z.pow_pos_nonneg; lia).
  assert (HJ : 0 < 2 ^ j) by (apply Z.pow_pos_nonneg; lia).
  rewrite Z.pow_add_r by lia.
  rewrite Z.div_mul_cancel_r by lia.
  rewrite Z.mul_mod_distr_r by lia.
  set (P := 2 ^ k) in *. set (J := 2 ^ j) in *. set (r := N mod P).
  assert (Hlt : (P * J <? 2 * (r * J)) = (P <? 2 * r)).
  { destruct (Z.ltb_spec (P * J) (2 * (r * J))), (Z.ltb_spec P (2 * r)); try done; nia. }
  assert (Heq : (P * J =? 2 * (r * J)) = (P =? 2 * r)).
  { destruct (Z.eqb_spec (P * J) (2 * (r * J))), (Z.eqb_spec P (2 * r)); try done; nia. }
  by rewrite Hlt, Heq.
Qed.

(** ** Bits of [SpecFloat] *)

Lemma digits2_pos_bounds (m : positive) :
  2 ^ (Zpos (digits2_pos m) - 1) <= Zpos m < 2 ^ Zpos (digits2_pos m).
Proof.
  induction m as [p IH|p IH|]; simpl digits2_pos.
  - rewrite Pos2Z.inj_succ, Z.pow_succ_r, Pos2Z.inj_xI by lia.
    replace (Z.succ (Zpos (digits2_pos p)) - 1) with (Z.succ (Zpos (digits2_pos p) - 1)) by lia.
    rewrite Z.pow_succ_r by lia. lia.
  - rewrite Pos2Z.inj_succ, Z.pow_succ_r by lia.
    change (Zpos p~0) with (2 * Zpos p).
    replace (Z.succ (Zpos (digits2_pos p)) - 1) with (Z.succ (Zpos (digits2_pos p) - 1)) by lia.
    rewrite Z.pow_succ_r by lia. lia.
  - done.
Qed.

Lemma digits2_pos_unique (m : positive) (d : Z) :
  2 ^ (d - 1) <= Zpos m < 2 ^ d -> Zpos (digits2_pos m) = d.
Proof.
  intros [Hlo Hhi]. pose proof (digits2_pos_bounds m) as [Hlo' Hhi'].
  assert (0 < d).
  { destruct (Z.ltb_spec 0 d) as [|Hd]; [done|]. exfalso.
    destruct (Z.eq_dec d 0) as [->|].
    - simpl in Hhi. lia.
    - rewrite Z.pow_neg_r in Hhi by lia. lia. }
  assert (d - 1 < Zpos (digits2_pos m)).
  { apply (Z.pow_lt_mono_r_iff 2); lia. }
  assert (Zpos (digits2_pos m) - 1 < d).
  { apply (Z.pow_lt_mono_r_iff 2); lia. }
  lia.
Qed.

Lemma pos_iter_xO (m d : positive) :
  Zpos (Pos.iter xO m d) = Zpos m * 2 ^ Zpos d.
Proof.
  induction d as [|d IH] using Pos.peano_ind.
  - simpl. lia.
  - rewrite Pos.iter_succ, Pos2Z.inj_succ, Z.pow_succ_r by lia.
    change (Zpos (Pos.iter xO m d)~0) with (2 * Zpos (Pos.iter xO m d)).
    rewrite IH. lia.
Qed.

Lemma shl_align_spec (mx : positive) (ex ex' : Z) :
  ex' <= ex ->
  exists m', shl_align mx ex ex' = (m', ex') /\ Zpos m' = Zpos mx * 2 ^ (ex - ex').
Proof.
  intros Hle. unfold shl_align.
  destruct (ex' - ex) as [|p|p] eqn:Hd; try lia.
  - assert (ex' = ex) as -> by lia. exists mx. rewrite Z.sub_diag. split; [done|lia].
  - exists (Pos.iter xO mx p). split; [done|].
    rewrite pos_iter_xO. f_equal. f_equal. lia.
Qed.

Lemma iter_pos_nat {A} (f : A -> A) (p : positive) (x : A) :
  SpecFloat.iter_pos f p x = Nat.iter (Pos.to_nat p) f x.
Proof.
  revert x. induction p as [p IH|p IH|]; intros x; simpl SpecFloat.iter_pos.
  - rewrite !IH, Pos2Nat.inj_xI.
    replace (S (2 * Pos.to_nat p))%nat with (S (Pos.to_nat p + Pos.to_nat p)) by lia.
    by rewrite Nat.iter_succ_r, Nat.iter_add.
  - rewrite !IH, Pos2Nat.inj_xO.
    replace (2 * Pos.to_nat p)%nat with (Pos.to_nat p + Pos.to_nat p)%nat by lia.
    by rewrite Nat.iter_add.
  - done.
Qed.

Lemma shr_1_nonneg (m : Z) (r s : bool) :
  0 <= m ->
  shr_1 (Build_shr_record m r s) = Build_shr_record (m / 2) (Z.odd m) (r || s).
Proof.
  intros Hm. destruct m as [|[p|p|]|p]; try lia; simpl shr_1; f_equal.
  - change (Zpos p~1) with (2 * Zpos p + 1). apply Z.div_unique with 1; lia.
  - change (Zpos p~0) with (2 * Zpos p). apply Z.div_unique with 0; lia.
Qed.


Lemma shifted_iter (M : Z) (k : nat) :
  0 <= M ->
  shifted M (Z.of_nat k) (Nat.iter k shr_1 (Build_shr_record M false false)).
Proof.
  intros HM. induction k as [|k IH].
  - unfold shifted. simpl. rewrite Z.div_1_r, Z.mod_1_r. repeat split; try done; lia.
  - rewrite Nat.iter_succ.
    destruct (Nat.iter k shr_1 _) as [m r s]. destruct IH as (Hm & Hr & Hs).
    simpl in Hm, Hr, Hs.
    assert (HP : 0 < 2 ^ Z.of_nat k) by (apply Z.pow_pos_nonneg; lia).
    assert (0 <= m) by (subst m; apply Z.div_pos; lia).
    rewrite shr_1_nonneg by done. unfold shifted. cbn [shr_m shr_r shr_s].
    rewrite Nat2Z.inj_succ, Z.pow_succ_r by lia.
    set (P := 2 ^ Z.of_nat k) in *.
    assert (Hdiv : M / (2 * P) = m / 2).
    { subst m. rewrite (Z.mul_comm 2 P), Z.div_div; lia. }
    assert (Hmod : M mod (2 * P) = M mod P + P * (m mod 2)).
    { subst m. rewrite (Z.mul_comm 2 P). apply Z.rem_mul_r; lia. }
    pose proof (Z.mod_pos_bound M P HP) as Hb.
    assert (Hodd : Z.odd m = true <-> m mod 2 = 1).
    { rewrite Zmod_odd. destruct (Z.odd m); split; done. }
    assert (Hm2 : m mod 2 = 0 \/ m mod 2 = 1).
    { pose proof (Z.mod_pos_bound m 2). lia. }
    rewrite Hdiv, Hmod. split; [done|]. split.
    + rewrite Hodd. destruct Hm2 as [-> | ->]; lia.
    + rewrite orb_true_iff, Hr, Hs. destruct Hm2 as [-> | ->]; lia.
Qed.

Lemma shr_spec (M : Z) (e : Z) (k : positive) :
  0 <= M ->
  exists mrs, shr (Build_shr_record M false false) e (Zpos k) = (mrs, e + Zpos k)
              /\ shifted M (Zpos k) mrs.
Proof.
  intros HM. eexists. split; [done|].
  rewrite iter_pos_nat, <- (positive_nat_Z k). by apply shifted_iter.
Qed.

Lemma round_shifted (M k : Z) (mrs : shr_record) :
  0 <= k -> 0 <= M -> shifted M k mrs ->
  round_nearest_even (shr_m mrs) (loc_of_shr_record mrs) = rne M k.
Proof.
  intros Hk HM (Hm & Hr & Hs). unfold rne.
  assert (HP : 0 < 2 ^ k) by (apply Z.pow_pos_nonneg; lia).
  pose proof (Z.mod_pos_bound M (2 ^ k) HP) as Hb.
  destruct mrs as [m r s]. simpl in *. subst m.
  destruct (Z.ltb_spec (2 ^ k) (2 * (M mod 2 ^ k)));
    destruct (Z.eqb_spec (2 ^ k) (2 * (M mod 2 ^ k)));
    destruct r, s; simpl; try done; try lia;
    try (destruct Hr as [Hr1 Hr2]; destruct Hs as [Hs1 Hs2];
         first [specialize (Hr1 eq_refl) | specialize (Hs1 eq_refl)
               | (assert (true = true -> False) by (intros _; lia)) ]; lia).
  - rewrite <- Z.negb_odd. by destruct (Z.odd _).
Qed.

(** ** Evaluating [1 - t] on the specification of binary64 *)


Lemma fexp64 (x : Z) : fexp prec emax x = Z.max (x - 53) (-1074).
Proof. reflexivity. Qed.

Lemma pow2_pos (a : Z) : 0 <= a -> 0 < 2 ^ a.
Proof. intros. apply Z.pow_pos_nonneg; lia. Qed.

Lemma pow2_split (a b : Z) : 0 <= a -> 0 <= b -> 2 ^ (a + b) = 2 ^ a * 2 ^ b.
Proof. intros. apply Z.pow_add_r; lia. Qed.

(** A mantissa of 53 bits needs no rounding. *)
Lemma binary_round_aux_exact (mz : positive) (ez : Z) :
  Zpos (digits2_pos mz) = 53 -> -1074 <= ez <= 971 ->
  binary_round_aux prec emax false (Zpos mz) ez loc_Exact = S754_finite false mz ez.
Proof.
  intros Hd He. unfold binary_round_aux, shr_fexp.
  cbn [Zdigits2 shr_record_of_loc]. rewrite Hd, fexp64.
  replace (Z.max (53 + ez - 53) (-1074) - ez) with 0 by lia.
  cbn [shr shr_m loc_of_shr_record round_nearest_even Zdigits2].
  rewrite Hd, fexp64.
  replace (Z.max (53 + ez - 53) (-1074) - ez) with 0 by lia.
  cbn [shr shr_m shr_record_of_loc].
  replace (ez <=? emax - prec) with true; [done|].
  symmetry. apply Z.leb_le. unfold emax, prec. lia.
Qed.

(** A mantissa of [53 + k] bits is rounded to nearest even at bit [k]. *)
Lemma binary_round_aux_shift (N k : positive) (e : Z) :
  Zpos (digits2_pos N) = 53 + Zpos k -> e + Zpos k = -53 ->
  binary_round_aux prec emax false (Zpos N) e loc_Exact =
  if rne (Zpos N) (Zpos k) <? 2 ^ 53
  then S754_finite false (Z.to_pos (rne (Zpos N) (Zpos k))) (-53)
  else sf_one.
Proof.
  intros Hd He.
  pose proof (digits2_pos_bounds N) as [Hlo Hhi]. rewrite Hd in Hlo, Hhi.
  replace (53 + Zpos k - 1) with (52 + Zpos k) in Hlo by lia.
  rewrite pow2_split in Hlo, Hhi by lia.
  pose proof (pow2_pos (Zpos k)) as HP.
  assert (Hq : 2 ^ 52 <= Zpos N / 2 ^ Zpos k < 2 ^ 53).
  { split.
    - apply Z.div_le_lower_bound; lia.
    - apply Z.div_lt_upper_bound; lia. }
  pose proof (rne_bounds (Zpos N) (Zpos k)) as Hr.
  unfold binary_round_aux, shr_fexp at 1.
  cbn [Zdigits2 shr_record_of_loc]. rewrite Hd, fexp64.
  replace (Z.max (53 + Zpos k + e - 53) (-1074) - e) with (Zpos k) by lia.
  destruct (shr_spec (Zpos N) e k) as (mrs & -> & Hsh); [lia|].
  rewrite (round_shifted (Zpos N) (Zpos k)) by (done || lia).
  rewrite He.
  destruct (Z.ltb_spec (rne (Zpos N) (Zpos k)) (2 ^ 53)) as [Hlt|Hge].
  - destruct (rne (Zpos N) (Zpos k)) as [|q|q] eqn:Hrne; try lia.
    assert (Hdq : Zpos (digits2_pos q) = 53).
    { apply digits2_pos_unique. change (53 - 1) with 52. lia. }
    unfold shr_fexp. cbn [Zdigits2 shr_record_of_loc]. rewrite Hdq, fexp64.
    change (Z.max (53 + -53 - 53) (-1074) - -53) with 0.
    cbn [shr shr_m]. done.
  - assert (rne (Zpos N) (Zpos k) = 2 ^ 53) as -> by lia. done.
Qed.

(** What validity says of a mantissa and its exponent. *)
Lemma bounded_inv (m : positive) (e : Z) :
  bounded prec emax m e = true ->
  -1074 <= e <= 971 /\ Zpos m < 2 ^ 53 /\ (-1074 < e -> 2 ^ 52 <= Zpos m).
Proof.
  unfold bounded, canonical_mantissa. rewrite andb_true_iff, fexp64.
  intros [Hc He]. apply Z.eqb_eq in Hc. apply Z.leb_le in He.
  unfold emax, prec in He.
  pose proof (digits2_pos_bounds m) as [Hlo Hhi].
  set (d := Zpos (digits2_pos m)) in *.
  assert (1 <= d) by (unfold d; lia).
  assert (Hd : d <= 53) by lia.
  split; [lia|]. split.
  - apply (Z.lt_le_trans _ _ _ Hhi). apply Z.pow_le_mono_r; lia.
  - intros Hn. assert (d = 53) as Hd53 by lia. by rewrite Hd53 in Hlo.
Qed.

(** [1 - t] for a valid positive finite [t] below 1: a positive finite float
    with a 53-bit mantissa whose value, in units of [2 ^ -106], is the
    rounding to nearest even of [(1 - t) * 2 ^ 53], times [2 ^ 53]. *)
Lemma sub_one_finite (m : positive) (e : Z) :
  bounded prec emax m e = true -> e <= -53 ->
  exists mz ez,
    SFsub prec emax sf_one (S754_finite false m e) = S754_finite false mz ez
    /\ Zpos (digits2_pos mz) = 53
    /\ -106 <= ez
    /\ Zpos mz * 2 ^ (ez + 106) = 2 ^ 53 * rne (2 ^ (- e) - Zpos m) (-53 - e).
Proof.
  intros Hb He. apply bounded_inv in Hb as (Hrange & Hm53 & Hnorm).
  unfold SFsub, sf_one. cbn [cond_Zopp]. rewrite Z.min_r by lia.
  destruct (shl_align_spec 4503599627370496 (-52) e) as (a & -> & Ha); [lia|].
  assert (Ha' : Zpos a = 2 ^ (- e)).
  { rewrite Ha. change 4503599627370496 with (2 ^ 52).
    rewrite <- pow2_split by lia. f_equal. lia. }
  unfold shl_align at 1. rewrite Z.sub_diag. cbn [fst].
  assert (H53 : 2 ^ 53 <= 2 ^ (- e)) by (apply Z.pow_le_mono_r; lia).
  destruct (Zpos a - Zpos m) as [|N|N] eqn:HN; try lia.
  assert (HN' : Zpos N = 2 ^ (- e) - Zpos m) by lia.
  rewrite <- HN'. unfold binary_normalize, binary_round.
  pose proof (digits2_pos_bounds N) as [Hlo Hhi].
  destruct (Z.eq_dec e (-53)) as [->|Hne].
  - (* t in [1/2, 1): the difference is exact *)
    change (- -53) with 53 in *. change (-53 - -53) with 0. rewrite rne_zero.
    assert (Hm52 : 2 ^ 52 <= Zpos m) by (apply Hnorm; lia).
    set (d := Zpos (digits2_pos N)) in *.
    assert (Hd1 : 1 <= d) by (unfold d; lia).
    assert (Hd53 : d <= 53).
    { destruct (Z.le_gt_cases d 53) as [|Hgt]; [done|].
      assert (2 ^ 53 <= 2 ^ (d - 1)) by (apply Z.pow_le_mono_r; lia). lia. }
    rewrite fexp64. replace (Z.max (d + -53 - 53) (-1074)) with (d - 106) by lia.
    destruct (shl_align_spec N (-53) (d - 106)) as (mz & -> & Hmz); [lia|].
    replace (-53 - (d - 106)) with (53 - d) in Hmz by lia.
    assert (Hpow : 2 ^ (d - 1) * 2 ^ (53 - d) = 2 ^ 52).
    { rewrite <- pow2_split by lia. f_equal. lia. }
    assert (Hpow' : 2 ^ d * 2 ^ (53 - d) = 2 ^ 53).
    { rewrite <- pow2_split by lia. f_equal. lia. }
    pose proof (pow2_pos (53 - d)) as HP.
    assert (Hdz : Zpos (digits2_pos mz) = 53).
    { apply digits2_pos_unique. change (53 - 1) with 52. rewrite Hmz. nia. }
    exists mz, (d - 106). split; [|split; [done|split; [lia|]]].
    + apply binary_round_aux_exact; [done|lia].
    + replace (d - 106 + 106) with d by lia. rewrite Hmz.
      rewrite <- Z.mul_assoc, (Z.mul_comm (2 ^ (53 - d))), Hpow'. lia.
  - (* t below 1/2: the difference is rounded at bit [-53 - e] *)
    assert (Hk : 0 < -53 - e) by lia.
    destruct (-53 - e) as [|k|k] eqn:Hke; try lia.
    assert (Hsplit : 2 ^ (- e) = 2 ^ 53 * 2 ^ Zpos k).
    { rewrite <- pow2_split by lia. f_equal. lia. }
    assert (Hsplit' : 2 ^ (- e) = 2 * 2 ^ (- e - 1)).
    { rewrite <- Z.pow_succ_r by lia. f_equal. lia. }
    assert (H53' : 2 ^ 53 <= 2 ^ (- e - 1)) by (apply Z.pow_le_mono_r; lia).
    assert (Hd : Zpos (digits2_pos N) = 53 + Zpos k).
    { apply digits2_pos_unique. replace (53 + Zpos k - 1) with (- e - 1) by lia.
      replace (53 + Zpos k) with (- e) by lia. lia. }
    rewrite Hd, fexp64.
    replace (Z.max (53 + Zpos k + e - 53) (-1074)) with (-53) by lia.
    unfold shl_align. rewrite Hke.
    rewrite (binary_round_aux_shift N k e) by (done || lia).
    pose proof (pow2_pos (Zpos k)) as HP.
    assert (Hq : 2 ^ 52 <= Zpos N / 2 ^ Zpos k < 2 ^ 53).
    { split.
      - apply Z.div_le_lower_bound; [lia|].
        replace (2 ^ Zpos k * 2 ^ 52) with (2 ^ (- e - 1)); [lia|].
        rewrite <- pow2_split by lia. f_equal. lia.
      - apply Z.div_lt_upper_bound; lia. }
    pose proof (rne_bounds (Zpos N) (Zpos k)) as Hr.
    destruct (Z.ltb_spec (rne (Zpos N) (Zpos k)) (2 ^ 53)) as [Hlt|Hge].
    + destruct (rne (Zpos N) (Zpos k)) as [|q|q] eqn:Hrne; try lia.
      exists q, (-53). split; [done|]. split; [|split; [lia|]].
      * apply digits2_pos_unique. change (53 - 1) with 52. lia.
      * change (-53 + 106) with 53. lia.
    + assert (Hrne : rne (Zpos N) (Zpos k) = 2 ^ 53) by lia. rewrite Hrne.
      exists 4503599627370496%positive, (-52). split; [done|].
      split; [done|]. split; [lia|]. done.
Qed.

(** ** Order *)

(** Positive floats with 53-bit mantissas compare as their values do. *)
Lemma SFleb_of_value (m1 m2 : positive) (e1 e2 : Z) :
  Zpos (digits2_pos m1) = 53 -> Zpos (digits2_pos m2) = 53 ->
  -106 <= e1 -> -106 <= e2 ->
  Zpos m1 * 2 ^ (e1 + 106) <= Zpos m2 * 2 ^ (e2 + 106) ->
  SFleb (S754_finite false m1 e1) (S754_finite false m2 e2) = true.
Proof.
  intros Hd1 Hd2 He1 He2 Hle.
  pose proof (digits2_pos_bounds m1) as [Hlo1 Hhi1].
  pose proof (digits2_pos_bounds m2) as [Hlo2 Hhi2].
  rewrite Hd1 in Hlo1, Hhi1. rewrite Hd2 in Hlo2, Hhi2.
  change (53 - 1) with 52 in *.
  pose proof (pow2_pos (e1 + 106)) as HP1. pose proof (pow2_pos (e2 + 106)) as HP2.
  unfold SFleb, SFcompare.
  destruct (Z.compare_spec e1 e2) as [->|Hlt|Hgt]; [|done|].
  - rewrite Pos.compare_cont_spec. simpl.
    destruct (Pos.compare_spec m1 m2) as [|?|Hgt]; [done..|]. nia.
  - exfalso.
    assert (Hpow : 2 * 2 ^ (e2 + 106) <= 2 ^ (e1 + 106)).
    { rewrite <- Z.pow_succ_r by lia. apply Z.pow_le_mono_r; lia. }
    nia.
Qed.

(** Below a float that is below or equal to another one. *)
Lemma SFltb_leb_trans (x : spec_float) (mb ma : positive) (eb ea : Z) :
  SFltb x (S754_finite false mb eb) = true ->
  SFleb (S754_finite false mb eb) (S754_finite false ma ea) = true ->
  SFltb x (S754_finite false ma ea) = true.
Proof.
  unfold SFltb, SFleb, SFcompare.
  destruct x as [s|s| |s m e]; try done.
  destruct s; [done|].
  rewrite !Pos.compare_cont_spec. simpl.
  destruct (Z.compare_spec e eb) as [He1|He1|He1]; try done;
    destruct (Z.compare_spec eb ea) as [He2|He2|He2]; try done;
    destruct (Z.compare_spec e ea) as [He3|He3|He3]; try done; try lia;
    destruct (Pos.compare_spec m mb) as [Hm1|Hm1|Hm1]; try done;
    destruct (Pos.compare_spec mb ma) as [Hm2|Hm2|Hm2]; try done;
    destruct (Pos.compare_spec m ma) as [Hm3|Hm3|Hm3]; try done; lia.
Qed.

(** [1 - t] does not increase with [t], for [t] in [[0, 1)]. *)
Lemma sub_one_antitone (t1 t2 : spec_float) :
  valid_binary t1 = true -> valid_binary t2 = true ->
  SFleb (S754_zero false) t1 = true ->
  SFleb t1 t2 = true ->
  SFltb t2 sf_one = true ->
  exists m1 e1 m2 e2,
    SFsub prec emax sf_one t1 = S754_finite false m1 e1
    /\ SFsub prec emax sf_one t2 = S754_finite false m2 e2
    /\ SFleb (S754_finite false m2 e2) (S754_finite false m1 e1) = true.
Proof.
  intros Hv1 Hv2 H0 H12 H21.
  (* a valid finite float below 1 has an exponent of -53 at most *)
  assert (Hexp : forall m e, bounded prec emax m e = true ->
            SFltb (S754_finite false m e) sf_one = true -> e <= -53).
  { intros m e Hb Hlt. apply bounded_inv in Hb as (Hr & Hm & Hn).
    unfold SFltb, sf_one, SFcompare in Hlt.
    destruct (Z.compare_spec e (-52)) as [->|?|?]; [|lia|done].
    rewrite Pos.compare_cont_spec in Hlt. simpl in Hlt.
    destruct (Pos.compare_spec m 4503599627370496) as [|Hlt'|]; try done.
    apply Pos2Z.pos_lt_pos in Hlt'.
    assert (2 ^ 52 <= Zpos m) by (by apply Hn).
    change (2 ^ 52) with 4503599627370496 in *. lia. }
  (* the value of [1 - t] is at most that of 1 *)
  assert (Hone : forall m e mz ez,
            bounded prec emax m e = true -> e <= -53 ->
            Zpos mz * 2 ^ (ez + 106) = 2 ^ 53 * rne (2 ^ (- e) - Zpos m) (-53 - e) ->
            Zpos mz * 2 ^ (ez + 106) <= 4503599627370496 * 2 ^ (-52 + 106)).
  { intros m e mz ez Hb He ->. apply bounded_inv in Hb as (Hr & Hm & Hn).
    pose proof (rne_bounds (2 ^ (- e) - Zpos m) (-53 - e)) as Hrb.
    pose proof (pow2_pos (-53 - e)) as HP.
    assert (Hsplit : 2 ^ (- e) = 2 ^ 53 * 2 ^ (-53 - e)).
    { rewrite <- pow2_split by lia. f_equal. lia. }
    assert ((2 ^ (- e) - Zpos m) / 2 ^ (-53 - e) < 2 ^ 53).
    { apply Z.div_lt_upper_bound; lia. }
    change (4503599627370496 * 2 ^ (-52 + 106)) with (2 ^ 53 * 2 ^ 53). lia. }
  destruct t1 as [s1|s1| |s1 m1 e1], t2 as [s2|s2| |s2 m2 e2];
    try destruct s1; try destruct s2; try done;
    try (by exists 4503599627370496%positive, (-52), 4503599627370496%positive, (-52));
    try (pose proof (Hexp _ _ Hv2 H21) as He2;
         destruct (sub_one_finite _ _ Hv2 He2) as (mz & ez & Hsub & Hd & Hez & Hval);
         exists 4503599627370496%positive, (-52), mz, ez;
         split; [done|]; split; [done|];
         apply SFleb_of_value; [done|done|lia|lia|]; by eapply Hone).
  - pose proof (Hexp _ _ Hv2 H21) as He2.
    assert (Hle : e1 < e2 \/ e1 = e2 /\ (Zpos m1 <= Zpos m2)).
    { unfold SFleb, SFcompare in H12.
      destruct (Z.compare_spec e1 e2) as [->|?|?]; [|lia|done].
      right. split; [done|]. rewrite Pos.compare_cont_spec in H12. simpl in H12.
      destruct (Pos.compare_spec m1 m2); try done; lia. }
    assert (He1 : e1 <= -53) by lia.
    destruct (sub_one_finite _ _ Hv1 He1) as (mz1 & ez1 & Hsub1 & Hd1 & Hez1 & Hval1).
    destruct (sub_one_finite _ _ Hv2 He2) as (mz2 & ez2 & Hsub2 & Hd2 & Hez2 & Hval2).
    exists mz1, ez1, mz2, ez2. split; [done|]. split; [done|].
    apply SFleb_of_value; [done..|]. rewrite Hval1, Hval2.
    apply Z.mul_le_mono_nonneg_l; [lia|].
    apply bounded_inv in Hv1 as (Hr1 & Hm1 & Hn1).
    apply bounded_inv in Hv2 as (Hr2 & Hm2 & Hn2).
    rewrite <- (rne_scale (2 ^ (- e2) - Zpos m2) (-53 - e2) (e2 - e1)) by lia.
    replace (-53 - e2 + (e2 - e1)) with (-53 - e1) by lia.
    apply rne_mono; [lia|].
    rewrite Z.mul_sub_distr_r, <- pow2_split by lia.
    replace (- e2 + (e2 - e1)) with (- e1) by lia.
    pose proof (pow2_pos (e2 - e1)) as HP.
    destruct Hle as [Hlt|[-> Hm]].
    + assert (2 <= 2 ^ (e2 - e1)).
      { change 2 with (2 ^ 1) at 1. apply Z.pow_le_mono_r; lia. }
      assert (2 ^ 52 <= Zpos m2) by (apply Hn2; lia).
      change (2 ^ 52) with 4503599627370496 in *.
      change (2 ^ 53) with 9007199254740992 in *. nia.
    + rewrite Z.sub_diag. simpl. lia.
Qed.

(** ** The limit of the walk, on floats *)

(** [1 - percentile_thresh] does not increase with [percentile_thresh] in
    [[0, 1)]: whatever is below the limit for the larger threshold is below
    the limit for the smaller one. *)
Lemma limit_antitone (t1 t2 x : float) :
  (0 <=? t1)%float = true -> (t1 <=? t2)%float = true -> (t2 <? 1)%float = true ->
  (x <? 1 - t2)%float = true -> (x <? 1 - t1)%float = true.
Proof.
  rewrite !FloatAxioms.leb_spec, !FloatAxioms.ltb_spec, !FloatAxioms.sub_spec.
  change (Prim2SF 1) with sf_one. change (Prim2SF 0) with (S754_zero false).
  intros H0 H12 H21.
  destruct (sub_one_antitone _ _ (Prim2SF_valid t1) (Prim2SF_valid t2) H0 H12 H21)
    as (m1 & e1 & m2 & e2 & E1 & E2 & Hle).
  unfold SF64sub. rewrite E1, E2. intros Hx. by eapply SFltb_leb_trans.
Qed.

(** ** The sign of the limit *)

(** For a threshold in [[0, 1)] the limit [1 - t] is positive. *)
Lemma limit_positive (t : float) :
  (0 <=? t)%float = true -> (t <? 1)%float = true ->
  (0 <? 1 - t)%float = true.
Proof.
  rewrite FloatAxioms.leb_spec, !FloatAxioms.ltb_spec, FloatAxioms.sub_spec.
  change (Prim2SF 1) with sf_one. change (Prim2SF 0) with (S754_zero false).
  intros H0 H1.
  destruct (sub_one_antitone (S754_zero false) (Prim2SF t) eq_refl
              (Prim2SF_valid t) eq_refl H0 H1)
    as (m1 & e1 & m2 & e2 & _ & E2 & _).
  unfold SF64sub. by rewrite E2.
Qed.



End Binary64.

(** ** [fit]: the recorded sparse sets *)

Lemma fit_ok_inv (X : DataFrame) (self self' : CategoricalGrouper) :
  fit (PyFrame X) self = (Ok tt, self') ->
  (0 < nrows X)%nat /\
  exists cols,
    _cat_cols_selection X (include_cols self) (exclude_cols self) = Ok cols /\
    if decide (method self = "freq")
    then for_each (fit_col X) cols (update_imp_cats_ ∅ (update_cat_cols_ cols self))
         = (Ok tt, self')
    else self' = update_imp_cats_ ∅ (update_cat_cols_ cols self).
Proof.
  intros Hfit.
  assert (Hn : (0 < nrows X)%nat).
  { revert Hfit. unfold fit. unfold_method.
    destruct (0 <? nrows X)%nat eqn:Hn; [by apply Nat.ltb_lt in Hn|by inversion 1]. }
  split; [done|]. rewrite (fit_frame_eq _ _ Hn) in Hfit.
  destruct (_cat_cols_selection _ _ _) as [cols|e]; [|by inversion Hfit].
  exists cols. split; [done|]. simpl in Hfit.
  destruct (decide _); [done|by inversion Hfit].
Qed.

(** A normal end of the loop of [fit]: every column of the loop got the
    entry the loop body computes for it, the other keys are as before. *)
Lemma fit_loop_ok (X : DataFrame) (cols : list string)
    (self self' : CategoricalGrouper) (d : gmap string (list label)) :
  imp_cats_ self = Some d ->
  for_each (fit_col X) cols self = (Ok tt, self') ->
  exists d',
    imp_cats_ self' = Some d'
    /\ (forall col, col ∈ cols ->
          exists s cands,
            df_getitem X col = Ok s
            /\ sparse_candidates (percentile_thresh self) s = Ok cands
            /\ d' !! col = Some (recorded_sparse cands))
    /\ (forall col, col ∉ cols -> d' !! col = d !! col).
Proof.
  revert self d. induction cols as [|c cols IH]; intros self d Hd.
  - simpl. unfold mret. inversion 1; subst. exists d. split; [done|]. split; [|done].
    intros col Hcol. by apply elem_of_nil in Hcol.
  - simpl. unfold mbind. rewrite fit_col_eq.
    destruct (df_getitem X c) as [s|e] eqn:Hget; [|by inversion 1].
    destruct (sparse_candidates _ s) as [cands|e] eqn:Hcand; [|by inversion 1].
    rewrite Hd. intros Hloop.
    apply (IH _ (<[c:=recorded_sparse cands]> d)) in Hloop as (d' & Hd' & Hin & Hout);
      [|done].
    exists d'. split; [done|]. split.
    + intros col Hcol. destruct (decide (col ∈ cols)) as [Hc|Hc].
      * apply Hin in Hc as (s' & cands' & ? & ? & ?). by exists s', cands'.
      * apply elem_of_cons in Hcol as [->|]; [|done].
        exists s, cands. repeat split; [done..|].
        rewrite (Hout _ Hc). apply lookup_insert_eq.
    + intros col Hcol. apply not_elem_of_cons in Hcol as [Hne Hcol].
      rewrite (Hout _ Hcol). by apply lookup_insert_ne.
Qed.

(** What [fit] with method 'freq' records when it returns. *)
Lemma fit_freq_ok (X : DataFrame) (self self' : CategoricalGrouper) :
  method self = "freq" ->
  fit (PyFrame X) self = (Ok tt, self') ->
  exists cols d,
    _cat_cols_selection X (include_cols self) (exclude_cols self) = Ok cols
    /\ cat_cols_ self' = Some cols
    /\ imp_cats_ self' = Some d
    /\ same_config self self'
    /\ (forall col, col ∈ cols ->
          exists s cands,
            df_getitem X col = Ok s
            /\ sparse_candidates (percentile_thresh self) s = Ok cands
            /\ d !! col = Some (recorded_sparse cands))
    /\ (forall col, col ∉ cols -> d !! col = None).
Proof.
  intros Hm Hfit. apply fit_ok_inv in Hfit as (Hn & cols & Hsel & Hloop).
  destruct (decide _); [|done].
  pose proof (fit_loop_frame X cols (update_imp_cats_ ∅ (update_cat_cols_ cols self)))
    as [Hcfg Hcc].
  rewrite Hloop in Hcfg, Hcc. simpl in Hcfg, Hcc.
  apply (fit_loop_ok _ _ _ _ ∅) in Hloop as (d & Hd & Hin & Hout); [|done].
  exists cols, d. split; [done|]. split; [done|]. split; [done|].
  split; [exact Hcfg|]. split; [exact Hin|].
  intros col Hcol. by rewrite (Hout _ Hcol).
Qed.

(** C2. Minimum-size rule.  When [fit] with method 'freq' returns, every
    selected column has an entry in [imp_cats_]: the empty list when the
    cumulative walk over the column's frequencies left 0 or 1 candidate
    sparse value, the list of candidates itself when it left 2 or more. *)
Theorem sparse_set_minimum_size (self self' : CategoricalGrouper) (X : DataFrame) :
  method self = "freq" ->
  fit (PyFrame X) self = (Ok tt, self') ->
  exists cols d,
    cat_cols_ self' = Some cols /\ imp_cats_ self' = Some d /\
    forall col, col ∈ cols ->
      exists s cands,
        df_getitem X col = Ok s
        /\ sparse_candidates (percentile_thresh self) s = Ok cands
        /\ ((length cands <= 1)%nat -> d !! col = Some [])
        /\ ((2 <= length cands)%nat -> d !! col = Some cands).
Proof.
  intros Hm Hfit.
  destruct (fit_freq_ok _ _ _ Hm Hfit) as (cols & d & _ & Hcc & Hd & _ & Hin & _).
  exists cols, d. repeat split; [done..|].
  intros col Hcol. destruct (Hin _ Hcol) as (s & cands & Hget & Hcand & Hrec).
  exists s, cands. repeat split; [done..| |]; intros Hlen; rewrite Hrec;
    unfold recorded_sparse.
  - by destruct (Nat.ltb_spec 1 (length cands)); [lia|].
  - by destruct (Nat.ltb_spec 1 (length cands)); [|lia].
Qed.

(** ** [transform]: one column *)

Lemma isin_true (imp : list label) (c : cell) :
  isin imp c = true <-> exists v, c = Some v /\ v ∈ imp.
Proof.
  destruct c as [v|]; simpl.
  - rewrite bool_decide_eq_true. split; [eauto|]. by intros (? & [= ->] & ?).
  - split; [done|]. by intros (? & ? & ?).
Qed.

Lemma isin_nil (c : cell) : isin [] c = false.
Proof.
  by destruct c.
Qed.

Lemma group_cell_nil (nc : label) (c : cell) : group_cell [] nc c = c.
Proof. unfold group_cell. by rewrite isin_nil. Qed.

Lemma group_cell_idemp (imp : list label) (nc : label) (c : cell) :
  group_cell imp nc (group_cell imp nc c) = group_cell imp nc c.
Proof.
  unfold group_cell. destruct (isin imp c) eqn:Hc; [|by rewrite Hc].
  by destruct (isin imp (Some nc)).
Qed.

(** The mask is taken before the categories change, the assignment is made
    after: together they amount to [group_cell] on every cell. *)
Lemma masked_assignment (imp removals : list label) (nc : label) (vals : list cell) :
  (forall v, v ∈ removals -> v ∈ imp) ->
  zip_with (fun (b : bool) c => if b then Some nc else c)
    (map (isin imp) vals)
    (map (fun c => if isin removals c then None else c) vals)
  = map (group_cell imp nc) vals.
Proof.
  intros Hsub. induction vals as [|c vals IH]; [done|].
  simpl. rewrite IH. f_equal. unfold group_cell.
  destruct (isin imp c) eqn:Hc; [done|].
  destruct (isin removals c) eqn:Hr; [|done].
  apply isin_true in Hr as (v & -> & Hv).
  assert (isin imp (Some v) = true) by (apply isin_true; eauto). congruence.
Qed.

Lemma masked_assignment_plain (imp : list label) (nc : label) (vals : list cell) :
  zip_with (fun (b : bool) c => if b then Some nc else c) (map (isin imp) vals) vals
  = map (group_cell imp nc) vals.
Proof. induction vals as [|c vals IH]; [done|]. simpl. by rewrite IH. Qed.

(** The domain after [add_categories] and [remove_categories]. *)
Lemma shrunk_domain (imp cats : list label) (nc : label) :
  nc ∉ imp ->
  filter (fun v => v ∉ filter (fun w => w ∈ cats ++ [nc]) imp) (cats ++ [nc])
  = filter (fun v => v ∉ imp) cats ++ [nc].
Proof.
  intros Hnc.
  assert (Hrem : forall v, v ∈ cats ++ [nc] ->
            v ∉ filter (fun w => w ∈ cats ++ [nc]) imp <-> v ∉ imp).
  { intros v Hv. rewrite list_elem_of_filter. tauto. }
  rewrite filter_app. f_equal.
  - apply filter_ext_in. intros v Hv. apply Hrem, elem_of_app. by left.
  - rewrite filter_cons, decide_True; [done|].
    apply Hrem; [|done]. apply elem_of_app. right. by apply list_elem_of_singleton.
Qed.

(** [rewrite_column] in closed form. *)
Lemma rewrite_column_eq (imp : list label) (nc : label) (s : Series) :
  rewrite_column imp nc s =
  match categories s with
  | None => Ok (mkSeries (name s) None (map (group_cell imp nc) (values s)))
  | Some cats =>
      if decide (nc ∈ cats) then Raise (ValueError msg_new_cat)
      else if decide (nc ∈ imp) then Raise (ValueError msg_setitem)
      else Ok (mkSeries (name s) (Some (filter (fun v => v ∉ imp) cats ++ [nc]))
                 (map (group_cell imp nc) (values s)))
  end.
Proof.
  unfold rewrite_column. destruct s as [n [cats|] vals]; simpl.
  - unfold add_categories. destruct (decide (nc ∈ cats)) as [Hin|Hin]; [done|].
    simpl. unfold loc_setitem. simpl.
    set (removals := filter (fun v => v ∈ cats ++ [nc]) imp).
    assert (Hsub : forall v, v ∈ removals -> v ∈ imp).
    { intros v Hv. by apply list_elem_of_filter in Hv as [_ ?]. }
    destruct (decide (nc ∈ imp)) as [Himp|Himp].
    + rewrite decide_False; [done|].
      rewrite list_elem_of_filter. intros [Hnr _]. apply Hnr.
      apply list_elem_of_filter. split; [|done].
      apply elem_of_app. right. by apply list_elem_of_singleton.
    + rewrite decide_True.
      * rewrite (masked_assignment _ _ _ _ Hsub). unfold removals.
        by rewrite shrunk_domain.
      * apply list_elem_of_filter. split.
        -- intros Hr. by apply Himp, Hsub.
        -- apply elem_of_app. right. by apply list_elem_of_singleton.
  - unfold loc_setitem. simpl. by rewrite masked_assignment_plain.
Qed.

Lemma rewrite_column_name (imp : list label) (nc : label) (s s' : Series) :
  rewrite_column imp nc s = Ok s' -> name s' = name s.
Proof.
  rewrite rewrite_column_eq. destruct (categories s); repeat case_decide;
    by inversion 1.
Qed.

(** A column that was rewritten successfully is either rewritten to itself
    again (any dtype but 'category') or refused (dtype 'category': the
    sentinel is in its domain by now). *)
Lemma rewrite_column_again (imp : list label) (nc : label) (s s' : Series) :
  rewrite_column imp nc s = Ok s' ->
  if is_category s
  then rewrite_column imp nc s' = Raise (ValueError msg_new_cat)
       /\ is_category s' = true
  else rewrite_column imp nc s' = Ok s' /\ is_category s' = false.
Proof.
  rewrite !rewrite_column_eq. unfold is_category.
  destruct (categories s) as [cats|] eqn:Hcats.
  - repeat case_decide; inversion 1; subst; simpl.
    rewrite decide_True; [done|].
    apply elem_of_app. right. by apply list_elem_of_singleton.
  - inversion 1; subst; simpl. split; [|done]. do 2 f_equal.
    rewrite <- list_fmap_compose. apply list_fmap_ext.
    intros _ c _. apply group_cell_idemp.
Qed.

(** ** [transform]: the frame *)

Lemma lookup_col_name (cols : list Series) (col : string) (s : Series) :
  lookup_col cols col = Some s -> name s = col.
Proof.
  induction cols as [|s0 cols IH]; [done|]. simpl.
  case_decide; [by inversion 1; subst|done].
Qed.

Lemma lookup_replace_eq (cols : list Series) (col : string) (s s' : Series) :
  lookup_col cols col = Some s -> name s' = col ->
  lookup_col (replace_col cols col s') col = Some s'.
Proof.
  intros Hl Hn. induction cols as [|s0 cols IH]; [done|]. simpl in *.
  case_decide; simpl; [by rewrite decide_True|].
  rewrite decide_False by done. auto.
Qed.

Lemma lookup_replace_ne (cols : list Series) (col c : string) (s' : Series) :
  c <> col -> name s' = col ->
  lookup_col (replace_col cols col s') c = lookup_col cols c.
Proof.
  intros Hne Hn. induction cols as [|s0 cols IH]; [done|]. simpl.
  case_decide as H0; simpl.
  - rewrite !decide_False; [done|congruence..].
  - by rewrite IH.
Qed.

Lemma replace_col_same (cols : list Series) (col : string) (s : Series) :
  lookup_col cols col = Some s -> replace_col cols col s = cols.
Proof.
  induction cols as [|s0 cols IH]; [done|]. simpl.
  case_decide; [by inversion 1|]. intros Hl. by rewrite IH.
Qed.

Section TransformLoop.

(** The recorded sparse sets and the sentinel are fixed during a call. *)
Context (d : gmap string (list label)) (nc : label).

Lemma transform_col_eq (X : DataFrame) (col : string) :
  transform_col d nc X col =
  match lookup_col (columns X) col with
  | None => Raise (KeyError col)
  | Some s =>
      match d !! col with
      | None => Raise (KeyError col)
      | Some imp =>
          match rewrite_column imp nc s with
          | Ok s' => Ok (df_setcol X col s')
          | Raise e => Raise e
          end
      end
  end.
Proof.
  unfold transform_col, df_getitem, dict_getitem.
  destruct (lookup_col _ _); [|done]. simpl.
  destruct (d !! col); [|done]. simpl.
  by destruct (rewrite_column _ _ _).
Qed.

Lemma transform_loop_app (pre post : list string) (X : DataFrame) :
  transform_loop d nc (pre ++ post) X =
  (Xp <- transform_loop d nc pre X ;; transform_loop d nc post Xp).
Proof.
  revert X. induction pre as [|c pre IH]; intros X; [done|].
  simpl. destruct (transform_col d nc X c); simpl; [apply IH|done].
Qed.

(** When the loop of [transform] ends normally: a column that is not
    selected is the input's; a selected column is present in the input, has
    a recorded sparse set, and is the input's column rewritten once. *)
Lemma transform_loop_ok (cols : list string) (X X' : DataFrame) :
  transform_loop d nc cols X = Ok X' ->
  (forall col, col ∉ cols ->
     lookup_col (columns X') col = lookup_col (columns X) col)
  /\ (forall col, col ∈ cols ->
        exists s imp s',
          lookup_col (columns X) col = Some s /\ d !! col = Some imp
          /\ rewrite_column imp nc s = Ok s'
          /\ lookup_col (columns X') col = Some s').
Proof.
  revert X. induction cols as [|c cols IH]; intros X.
  - simpl. inversion 1; subst. split; [done|].
    intros col Hcol. by apply elem_of_nil in Hcol.
  - simpl. rewrite transform_col_eq.
    destruct (lookup_col (columns X) c) as [s|] eqn:Hs; [|done].
    destruct (d !! c) as [imp|] eqn:Himp; [|done].
    destruct (rewrite_column imp nc s) as [s1|e] eqn:Hrw; [|done].
    simpl. intros Hloop. apply IH in Hloop as [Hout Hin].
    pose proof (lookup_col_name _ _ _ Hs) as Hname.
    pose proof (rewrite_column_name _ _ _ _ Hrw) as Hname1.
    assert (Hc1 : lookup_col (columns (df_setcol X c s1)) c = Some s1).
    { simpl. eapply lookup_replace_eq; [done|congruence]. }
    assert (Hne : forall col, col <> c ->
              lookup_col (columns (df_setcol X c s1)) col = lookup_col (columns X) col).
    { intros col Hcol. simpl. apply lookup_replace_ne; [done|congruence]. }
    split.
    + intros col Hcol. apply not_elem_of_cons in Hcol as [Hcc Hcol].
      by rewrite (Hout _ Hcol), (Hne _ Hcc).
    + intros col Hcol. destruct (decide (col ∈ cols)) as [Hr|Hr].
      * destruct (Hin _ Hr) as (s2 & imp2 & s2' & Hs2 & Himp2 & Hrw2 & Hs2').
        destruct (decide (col = c)) as [->|Hcc].
        -- rewrite Hc1 in Hs2. inversion Hs2; subst s2.
           rewrite Himp in Himp2. inversion Himp2; subst imp2.
           exists s, imp, s1. repeat split; [done..|].
           pose proof (rewrite_column_again _ _ _ _ Hrw) as Hagain.
           destruct (is_category s); destruct Hagain as [Hagain _]; congruence.
        -- rewrite (Hne _ Hcc) in Hs2. by exists s2, imp2, s2'.
      * apply elem_of_cons in Hcol as [->|]; [|done].
        exists s, imp, s1. repeat split; [done..|]. by rewrite (Hout _ Hr).
Qed.

(** A second pass over a frame whose selected columns have all been
    rewritten: it stops at the first selected 'category' column, and hands
    the frame back unchanged when there is none. *)
Lemma transform_loop_settled (cols : list string) (X1 : DataFrame) :
  (forall col, col ∈ cols ->
     exists s1 imp,
       lookup_col (columns X1) col = Some s1 /\ d !! col = Some imp
       /\ if is_category s1
          then rewrite_column imp nc s1 = Raise (ValueError msg_new_cat)
          else rewrite_column imp nc s1 = Ok s1) ->
  transform_loop d nc cols X1 =
  if decide (selects_category cols X1) then Raise (ValueError msg_new_cat)
  else Ok X1.
Proof.
  induction cols as [|c cols IH]; intros Hall.
  - destruct (decide (selects_category [] X1)) as [(col & _ & Hcol & _)|]; [|done].
    by apply elem_of_nil in Hcol.
  - destruct (Hall c) as (s1 & imp & Hs1 & Himp & Hrw); [by left|].
    cbn [transform_loop]. rewrite transform_col_eq, Hs1, Himp.
    destruct (is_category s1) eqn:Hcat; rewrite Hrw; cbn [rbind].
    + destruct (decide (selects_category (c :: cols) X1)) as [|Hn]; [done|].
      exfalso. apply Hn. exists c, s1. split; [by left|done].
    + unfold df_setcol. rewrite (replace_col_same _ _ _ Hs1).
      replace (mkFrame (columns X1) (nrows X1)) with X1 by by destruct X1.
      rewrite IH by (intros col Hcol; apply Hall; by right).
      destruct (decide (selects_category cols X1)) as [Hsc|Hsc];
        destruct (decide (selects_category (c :: cols) X1)) as [Hsc'|Hsc']; try done.
      * exfalso. apply Hsc'.
        destruct Hsc as (col & s & ? & ? & ?). exists col, s. split; [by right|done].
      * exfalso. destruct Hsc' as (col & s & Hcol & Hs & Hc).
        apply elem_of_cons in Hcol as [->|Hcol].
        -- congruence.
        -- apply Hsc. by exists col, s.
Qed.

End TransformLoop.

(** ** [transform]: the properties *)

Lemma transform_ok_inv (self : CategoricalGrouper) (X : py_frame_arg) (X' : DataFrame) :
  transform self X = Ok X' ->
  exists cols d X0,
    cat_cols_ self = Some cols /\ imp_cats_ self = Some d /\ X = PyFrame X0
    /\ transform_loop d (new_cat self) cols X0 = Ok X'.
Proof.
  unfold transform, get_imp_cats_, get_cat_cols_.
  destruct (imp_cats_ self) as [d|]; [|done].
  destruct (cat_cols_ self) as [cols|]; [|done]. simpl.
  destruct X as [X0|]; [|done]. intros Hloop. by exists cols, d, X0.
Qed.

Lemma transform_fitted_eq (self : CategoricalGrouper) (cols : list string)
    (d : gmap string (list label)) (X : DataFrame) :
  cat_cols_ self = Some cols -> imp_cats_ self = Some d ->
  transform self (PyFrame X) = transform_loop d (new_cat self) cols X.
Proof.
  intros Hc Hd. unfold transform, get_imp_cats_, get_cat_cols_. by rewrite Hc, Hd.
Qed.

Lemma filter_not_in_nil (cats : list label) :
  filter (fun v => v ∉ []) cats = cats.
Proof.
  induction cats as [|v cats IH]; [done|].
  rewrite filter_cons, decide_True, IH; [done|apply not_elem_of_nil].
Qed.

(** C4, as the code has it.  Let [fit] with method 'freq' have returned and
    let the walk over a selected column have left 0 or 1 candidate sparse
    value.  Whenever [transform] then returns, that column has the cells it
    had in the input, unchanged; a column of any dtype but 'category'
    is entirely unchanged, while the domain of a 'category' column is the
    input's domain with [new_cat] appended. *)
Theorem no_sparse_set_keeps_cells (self self' : CategoricalGrouper)
    (X0 X X' : DataFrame) (cols : list string) (col : string)
    (s0 : Series) (cands : list label) :
  method self = "freq" ->
  fit (PyFrame X0) self = (Ok tt, self') ->
  cat_cols_ self' = Some cols -> col ∈ cols ->
  df_getitem X0 col = Ok s0 ->
  sparse_candidates (percentile_thresh self) s0 = Ok cands ->
  (length cands <= 1)%nat ->
  transform self' (PyFrame X) = Ok X' ->
  exists s s',
    lookup_col (columns X) col = Some s
    /\ lookup_col (columns X') col = Some s'
    /\ name s' = name s
    /\ values s' = values s
    /\ categories s' = (fun cats => cats ++ [new_cat self]) <$> categories s.
Proof.
  intros Hm Hfit Hcols Hcol Hs0 Hcands Hlen Htr.
  destruct (fit_freq_ok _ _ _ Hm Hfit)
    as (cols' & d & _ & Hcc & Hd & Hcfg & Hin & _).
  rewrite Hcols in Hcc. inversion Hcc; subst cols'.
  destruct (Hin _ Hcol) as (s0' & cands' & Hs0' & Hcands' & Hrec).
  rewrite Hs0 in Hs0'. inversion Hs0'; subst s0'.
  rewrite Hcands in Hcands'. inversion Hcands'; subst cands'.
  assert (Hempty : d !! col = Some []).
  { rewrite Hrec. unfold recorded_sparse.
    by destruct (Nat.ltb_spec 1 (length cands)); [lia|]. }
  rewrite (transform_fitted_eq _ _ _ _ Hcols Hd) in Htr.
  apply transform_loop_ok in Htr as [_ Hsel].
  destruct (Hsel _ Hcol) as (s & imp & s' & Hs & Himp & Hrw & Hs').
  rewrite Hempty in Himp. inversion Himp; subst imp.
  exists s, s'. split; [done|]. split; [done|].
  assert (Hnc : new_cat self' = new_cat self) by (symmetry; apply Hcfg).
  rewrite Hnc in Hrw. rewrite rewrite_column_eq in Hrw.
  assert (Hid : map (group_cell [] (new_cat self)) (values s) = values s).
  { rewrite <- (list_fmap_id (values s)) at 2. apply list_fmap_ext.
    intros _ c _. apply group_cell_nil. }
  destruct (categories s) as [cats|] eqn:Hcats.
  - repeat case_decide; inversion Hrw; subst; simpl.
    repeat split; [done|]. by rewrite filter_not_in_nil.
  - by inversion Hrw; subst.
Qed.

(** C6. Domain shrink.  Whenever [transform] returns, every selected column
    that had dtype 'category' in the input still has it; its domain is the
    input's domain without the column's recorded sparse values, followed by
    [new_cat]: no sparse value is a member of it any more, and [new_cat]
    is. *)
Theorem domain_shrink (self : CategoricalGrouper) (X X' : DataFrame)
    (cols : list string) (d : gmap string (list label)) (col : string)
    (s : Series) (dom imp : list label) :
  cat_cols_ self = Some cols -> imp_cats_ self = Some d ->
  col ∈ cols -> d !! col = Some imp ->
  lookup_col (columns X) col = Some s -> categories s = Some dom ->
  transform self (PyFrame X) = Ok X' ->
  exists s' dom',
    lookup_col (columns X') col = Some s'
    /\ categories s' = Some dom'
    /\ dom' = filter (fun v => v ∉ imp) dom ++ [new_cat self]
    /\ new_cat self ∈ dom'
    /\ forall v, v ∈ imp -> v ∉ dom'.
Proof.
  intros Hcols Hd Hcol Himp Hs Hdom Htr.
  rewrite (transform_fitted_eq _ _ _ _ Hcols Hd) in Htr.
  apply transform_loop_ok in Htr as [_ Hsel].
  destruct (Hsel _ Hcol) as (s1 & imp1 & s' & Hs1 & Himp1 & Hrw & Hs').
  rewrite Hs in Hs1. inversion Hs1; subst s1.
  rewrite Himp in Himp1. inversion Himp1; subst imp1.
  rewrite rewrite_column_eq, Hdom in Hrw.
  destruct (decide (new_cat self ∈ dom)); [done|].
  destruct (decide (new_cat self ∈ imp)) as [|Hnc]; [done|].
  inversion Hrw; subst s'. simpl in *.
  eexists _, _. split; [done|]. split; [done|]. split; [done|]. split.
  - apply elem_of_app. right. by apply list_elem_of_singleton.
  - intros v Hv Hin. apply elem_of_app in Hin as [Hin|Hin].
    + by apply list_elem_of_filter in Hin as [? _].
    + apply list_elem_of_singleton in Hin. by subst.
Qed.

(** C3, as the code has it.  Let [transform] have returned [X1] on [X].
    If no selected column of [X] has dtype 'category', transforming [X1]
    again returns [X1]; if some selected column has, transforming [X1]
    again raises the [ValueError] that asks for a different [new_cat]. *)
Theorem transform_twice (self : CategoricalGrouper) (X X1 : DataFrame)
    (cols : list string) :
  cat_cols_ self = Some cols ->
  transform self (PyFrame X) = Ok X1 ->
  (~ selects_category cols X -> transform self (PyFrame X1) = Ok X1)
  /\ (selects_category cols X ->
      transform self (PyFrame X1) = Raise (ValueError msg_new_cat)).
Proof.
  intros Hcols Htr.
  destruct (transform_ok_inv _ _ _ Htr) as (cols' & d & X0 & Hcc & Hd & HX & Hloop).
  inversion HX; subst X0. rewrite Hcols in Hcc. inversion Hcc; subst cols'.
  rewrite (transform_fitted_eq _ _ _ _ Hcols Hd).
  apply transform_loop_ok in Hloop as [_ Hsel].
  rewrite transform_loop_settled.
  - assert (Hiff : selects_category cols X1 <-> selects_category cols X).
    { split; intros (col & s & Hcol & Hs & Hcat);
        destruct (Hsel _ Hcol) as (s0 & imp & s1 & Hs0 & _ & Hrw & Hs1);
        pose proof (rewrite_column_again _ _ _ _ Hrw) as Hagain.
      - exists col, s0. repeat split; [done..|].
        destruct (is_category s0); [done|]. destruct Hagain. congruence.
      - exists col, s1. repeat split; [done..|].
        assert (s0 = s) as -> by congruence. rewrite Hcat in Hagain. tauto. }
    destruct (decide (selects_category cols X1)); tauto.
  - intros col Hcol.
    destruct (Hsel _ Hcol) as (s0 & imp & s1 & Hs0 & Himp & Hrw & Hs1).
    exists s1, imp. split; [done|]. split; [done|].
    pose proof (rewrite_column_again _ _ _ _ Hrw) as Hagain.
    destruct (is_category s0); destruct Hagain as [? ->]; done.
Qed.

(** C7, as the code has it.  Let a selected column of [X] have dtype
    'category' and a domain that contains [new_cat].  Then [transform]
    returns no dataset.  It raises the [ValueError] that asks for a
    different [new_cat] as soon as the column has a recorded sparse set and
    the columns selected before it are rewritten without an exception;
    otherwise the exception of the first failing step comes first. *)
Theorem sentinel_collision (self : CategoricalGrouper) (X : DataFrame)
    (cols : list string) (d : gmap string (list label)) (col : string)
    (s : Series) (dom : list label) :
  cat_cols_ self = Some cols -> imp_cats_ self = Some d ->
  col ∈ cols ->
  lookup_col (columns X) col = Some s -> categories s = Some dom ->
  new_cat self ∈ dom ->
  (forall X', transform self (PyFrame X) <> Ok X')
  /\ (forall pre post imp Xp,
        cols = pre ++ col :: post -> d !! col = Some imp ->
        transform_loop d (new_cat self) pre X = Ok Xp ->
        transform self (PyFrame X) = Raise (ValueError msg_new_cat)).
Proof.
  intros Hcols Hd Hcol Hs Hdom Hnc.
  assert (Hrefuse : forall imp,
            rewrite_column imp (new_cat self) s = Raise (ValueError msg_new_cat)).
  { intros imp. by rewrite rewrite_column_eq, Hdom, decide_True. }
  assert (Hnever : forall cols0 X', col ∈ cols0 ->
            transform_loop d (new_cat self) cols0 X <> Ok X').
  { intros cols0 X' Hin Hloop. apply transform_loop_ok in Hloop as [_ Hsel].
    destruct (Hsel _ Hin) as (s0 & imp & s' & Hs0 & _ & Hrw & _).
    assert (s0 = s) as -> by congruence. by rewrite Hrefuse in Hrw. }
  rewrite (transform_fitted_eq _ _ _ _ Hcols Hd). split.
  - intros X'. by apply Hnever.
  - intros pre post imp Xp -> Himp Hpre.
    rewrite transform_loop_app, Hpre. cbn [rbind transform_loop].
    rewrite transform_col_eq.
    destruct (decide (col ∈ pre)) as [Hin|Hout]; [by apply Hnever in Hpre|].
    apply transform_loop_ok in Hpre as [Hsame _].
    by rewrite (Hsame _ Hout), Hs, Himp, Hrefuse.
Qed.

(** ** The examples, run *)

Example fit_color :
  fit (PyFrame (color_frame color_rows)) default_grouper = (Ok tt, color_fitted).
Proof. vm_compute. reflexivity. Qed.

Example transform_color :
  transform color_fitted (PyFrame (color_frame color_rows))
  = Ok (color_frame_out color_rows).
Proof. vm_compute. reflexivity. Qed.

Example fit_flag : fit (PyFrame flag_frame) default_grouper = (Ok tt, flag_fitted).
Proof. vm_compute. reflexivity. Qed.

Example transform_flag : transform flag_fitted (PyFrame flag_frame) = Ok flag_frame_out.
Proof. vm_compute. reflexivity. Qed.

Example fit_kinds : fit (PyFrame kinds_frame) default_grouper = (Ok tt, kinds_fitted).
Proof. vm_compute. reflexivity. Qed.

Example fit_count : fit (PyFrame kinds_only_frame) count_grouper = (Ok tt, count_fitted).
Proof. vm_compute. reflexivity. Qed.

Example fit_city : fit (PyFrame city_frame) city_grouper = (Ok tt, city_fitted).
Proof. vm_compute. reflexivity. Qed.

Example transform_city : transform city_fitted (PyFrame city_frame) = Ok city_frame_out.
Proof. vm_compute. reflexivity. Qed.

(** ** The end-to-end example *)

Lemma count_value_perm (v : label) (rows rows' : list cell) :
  rows ≡ₚ rows' -> count_value v rows = count_value v rows'.
Proof. intros Hp. unfold count_value. by rewrite Hp. Qed.

(** The counts of a categorical column depend on its rows as a multiset. *)
Lemma value_counts_normalize_perm (n : string) (cats : list label)
    (rows rows' : list cell) :
  rows ≡ₚ rows' ->
  value_counts_normalize (mkSeries n (Some cats) rows)
  = value_counts_normalize (mkSeries n (Some cats) rows').
Proof.
  intros Hp. unfold value_counts_normalize, value_counts, counted_keys. simpl.
  assert (Heq : map (fun v => (v, count_value v rows)) cats
                = map (fun v => (v, count_value v rows')) cats).
  { apply list_fmap_ext. intros _ v _. by rewrite (count_value_perm v _ _ Hp). }
  by rewrite Heq.
Qed.

Lemma color_grouped_eq (rows : list cell) :
  map (group_cell [yellow; purple] other) rows = color_grouped rows.
Proof.
  apply list_fmap_ext. intros _ c _. unfold group_cell.
  destruct (isin [yellow; purple] c) eqn:Hin.
  - apply isin_true in Hin as (v & -> & Hv). rewrite decide_True; [done|].
    apply elem_of_cons in Hv as [->|Hv]; [by left|].
    apply list_elem_of_singleton in Hv as ->. by right.
  - rewrite decide_False; [done|]. intros [->| ->]; by vm_compute in Hin.
Qed.

(** C1. End-to-end example.  Take any dataset whose categorical column
    'color' has 100 rows holding 70 red, 20 blue, 5 green, 3 yellow and
    2 purple, in any order.  With the default arguments (method 'freq',
    threshold 0.05, sentinel 'Other') the walk over the frequencies, in the
    order red, blue, green, yellow, purple, stops after green: it keeps
    red, blue and green and leaves yellow and purple.  [fit] records
    exactly [yellow; purple] for 'color', and [transform] returns the
    dataset in which every yellow or purple row holds 'Other' and every
    other row is unchanged. *)
Theorem end_to_end_color (rows : list cell) :
  rows ≡ₚ color_rows ->
  (exists i,
     let sorted_series := value_counts_normalize (color_column rows) in
     walk (1 - thresh_default)%float (map snd sorted_series) 0%float 0 = Ok i
     /\ take i (map fst sorted_series) = [red; blue; green]
     /\ drop i (map fst sorted_series) = [yellow; purple])
  /\ fit (PyFrame (color_frame rows)) default_grouper = (Ok tt, color_fitted)
  /\ transform color_fitted (PyFrame (color_frame rows)) = Ok (color_frame_out rows).
Proof.
  intros Hp.
  pose proof (value_counts_normalize_perm "color" [blue; green; purple; red; yellow]
                _ _ Hp) as Hvc.
  fold (color_column rows) (color_column color_rows) in Hvc.
  split; [|split].
  - exists 3%nat. cbv zeta. rewrite Hvc. by vm_compute.
  - rewrite fit_frame_eq by (simpl; lia).
    change (_cat_cols_selection (color_frame rows) _ _) with (Ok ["color"]).
    cbv beta iota zeta. rewrite decide_True by done.
    cbn [for_each]. unfold mbind. rewrite fit_col_eq.
    change (df_getitem (color_frame rows) "color") with (Ok (color_column rows)).
    unfold sparse_candidates. rewrite Hvc.
    by vm_compute.
  - rewrite (transform_fitted_eq _ ["color"] {[ "color" := [yellow; purple] ]})
      by done.
    cbn [transform_loop]. rewrite transform_col_eq.
    change (lookup_col (columns (color_frame rows)) "color")
      with (Some (color_column rows)).
    change ({[ "color" := [yellow; purple] ]} !! "color")
      with (Some [yellow; purple]).
    cbv beta iota. rewrite rewrite_column_eq. cbn [categories color_column].
    rewrite decide_False by compute_done.
    rewrite decide_False by compute_done.
    change (new_cat color_fitted) with other. rewrite color_grouped_eq.
    by vm_compute.
Qed.

(** ** Threshold monotonicity *)

Lemma walk_ge (limit : float) (rest : list float) (tracker : float) (i j : nat) :
  walk limit rest tracker i = Ok j -> (i <= j)%nat.
Proof.
  revert tracker i. induction rest as [|f rest IH]; intros tracker i; simpl;
    destruct (tracker <? limit)%float; try by inversion 1.
  intros Hw. apply IH in Hw. lia.
Qed.

Lemma recorded_sparse_mono (c1 c2 : list label) :
  (length c1 <= length c2)%nat ->
  (length (recorded_sparse c1) <= length (recorded_sparse c2))%nat.
Proof.
  intros Hle. unfold recorded_sparse.
  destruct (Nat.ltb_spec 1 (length c1)), (Nat.ltb_spec 1 (length c2));
    simpl; lia.
Qed.

Lemma no_larger_insert (d1 d2 : gmap string (list label)) (col : string)
    (l1 l2 : list label) :
  no_larger d1 d2 -> (length l1 <= length l2)%nat ->
  no_larger (<[col := l1]> d1) (<[col := l2]> d2).
Proof.
  intros Hd Hl c. destruct (decide (c = col)) as [->|Hne].
  - by rewrite !lookup_insert_eq.
  - rewrite !lookup_insert_ne by done. apply Hd.
Qed.

Section TwoThresholds.

(** Two thresholds whose limits [1 - t] are ordered: whatever is below the
    limit of [t2] is below the limit of [t1]. *)
Variables t1 t2 : float.
Hypothesis limit_le :
  forall x, (x <? 1 - t2)%float = true -> (x <? 1 - t1)%float = true.

(** With the lower limit the walk stops no later, and does not run off the
    end of the frequencies if it did not with the higher limit. *)
Lemma walk_mono (rest : list float) (tracker : float) (i i1 : nat) :
  walk (1 - t1) rest tracker i = Ok i1 ->
  exists i2, walk (1 - t2) rest tracker i = Ok i2 /\ (i2 <= i1)%nat.
Proof.
  revert tracker i.
  induction rest as [|f rest IH]; intros tracker i; simpl;
    destruct (tracker <? 1 - t2)%float eqn:H2.
  - by rewrite (limit_le _ H2).
  - intros Hw. exists i. split; [done|]. apply (walk_ge (1 - t1) [] tracker). by simpl.
  - rewrite (limit_le _ H2). apply IH.
  - intros Hw. exists i. split; [done|].
    apply (walk_ge (1 - t1) (f :: rest) tracker). by simpl.
Qed.

Lemma sparse_candidates_mono (s : Series) (c1 : list label) :
  sparse_candidates t1 s = Ok c1 ->
  exists c2, sparse_candidates t2 s = Ok c2 /\ (length c1 <= length c2)%nat.
Proof.
  unfold sparse_candidates.
  destruct (walk (1 - t1) _ _ _) as [i1|e] eqn:Hw1; [|done].
  destruct (walk_mono _ _ _ _ Hw1) as (i2 & -> & Hi).
  simpl. inversion 1; subst. eexists. split; [done|].
  rewrite !length_drop. lia.
Qed.

(** The loop of [fit] under the two thresholds, in lockstep. *)
Lemma fit_loop_mono (X : DataFrame) (cols : list string)
    (st1 st2 st1' : CategoricalGrouper) (d1 d2 : gmap string (list label)) :
  percentile_thresh st1 = t1 -> percentile_thresh st2 = t2 ->
  imp_cats_ st1 = Some d1 -> imp_cats_ st2 = Some d2 -> no_larger d1 d2 ->
  for_each (fit_col X) cols st1 = (Ok tt, st1') ->
  exists st2' d1' d2',
    for_each (fit_col X) cols st2 = (Ok tt, st2')
    /\ imp_cats_ st1' = Some d1' /\ imp_cats_ st2' = Some d2'
    /\ no_larger d1' d2'.
Proof.
  revert st1 st2 d1 d2. induction cols as [|col cols IH];
    intros st1 st2 d1 d2 Ht1 Ht2 Hd1 Hd2 Hle.
  - simpl. unfold mret. inversion 1; subst. by exists st2, d1, d2.
  - simpl. unfold mbind. rewrite !fit_col_eq, Ht1, Ht2.
    destruct (df_getitem X col) as [s|e]; [|by inversion 1].
    destruct (sparse_candidates t1 s) as [c1|e] eqn:Hc1; [|by inversion 1].
    destruct (sparse_candidates_mono _ _ Hc1) as (c2 & -> & Hlen).
    rewrite Hd1, Hd2. apply IH with (d1 := <[col:=recorded_sparse c1]> d1)
                                    (d2 := <[col:=recorded_sparse c2]> d2);
      [done..|].
    by apply no_larger_insert, recorded_sparse_mono.
Qed.

End TwoThresholds.

(** C9. Threshold monotonicity.  Let [0 <= t1 <= t2 < 1] and let [fit] with
    [percentile_thresh = t1] return on a dataset.  Then [fit] with
    [percentile_thresh = t2] (same dataset, same other arguments) returns as
    well, selects the same columns and records, for every column, a sparse
    set at least as large as the one recorded with [t1]. *)
Theorem threshold_monotone (self self1 : CategoricalGrouper) (X : DataFrame)
    (t1 t2 : float) :
  (0 <=? t1)%float = true -> (t1 <=? t2)%float = true -> (t2 <? 1)%float = true ->
  fit (PyFrame X) (with_thresh t1 self) = (Ok tt, self1) ->
  exists self2 d1 d2,
    fit (PyFrame X) (with_thresh t2 self) = (Ok tt, self2)
    /\ cat_cols_ self2 = cat_cols_ self1
    /\ imp_cats_ self1 = Some d1 /\ imp_cats_ self2 = Some d2
    /\ forall col,
         match d1 !! col, d2 !! col with
         | Some l1, Some l2 => (length l1 <= length l2)%nat
         | None, None => True
         | _, _ => False
         end.
Proof.
  intros H0 H12 H21 Hfit.
  pose proof (fun x => Binary64.limit_antitone t1 t2 x H0 H12 H21) as Hlim.
  apply fit_ok_inv in Hfit as (Hn & cols & Hsel & Hloop).
  rewrite (fit_frame_eq _ _ Hn). cbn [with_thresh include_cols exclude_cols method] in *.
  rewrite Hsel. cbv beta iota zeta.
  destruct (decide (method self = "freq")) as [Hm|Hm].
  - pose proof (fit_loop_frame X cols
                  (update_imp_cats_ ∅ (update_cat_cols_ cols (with_thresh t1 self))))
      as [_ Hcc1].
    rewrite Hloop in Hcc1. simpl in Hcc1.
    apply (fit_loop_mono t1 t2 Hlim X cols _
             (update_imp_cats_ ∅ (update_cat_cols_ cols (with_thresh t2 self)))
             _ ∅ ∅) in Hloop as (self2 & d1 & d2 & Hloop2 & Hd1 & Hd2 & Hle);
      [|done..].
    pose proof (fit_loop_frame X cols
                  (update_imp_cats_ ∅ (update_cat_cols_ cols (with_thresh t2 self))))
      as [_ Hcc2].
    rewrite Hloop2 in Hcc2. simpl in Hcc2.
    exists self2, d1, d2. split; [done|]. split; [by rewrite Hcc1, Hcc2|].
    split; [done|]. split; [done|]. exact Hle.
  - subst self1. eexists _, ∅, ∅. split; [done|]. split; [done|].
    split; [done|]. split; [done|]. intros col. by rewrite lookup_empty.
Qed.

(** ** Where the specification and the code part *)

(** C3 as stated fails.  On the end-to-end example the column 'color' has
    dtype 'category': the first [transform] puts 'Other' in its domain, so
    the second [transform] is refused by [add_categories] and raises instead
    of returning the same dataset. *)
Lemma transform_twice_refused :
  fit (PyFrame (color_frame color_rows)) default_grouper = (Ok tt, color_fitted)
  /\ transform color_fitted (PyFrame (color_frame color_rows))
     = Ok (color_frame_out color_rows)
  /\ transform color_fitted (PyFrame (color_frame_out color_rows))
     = Raise (ValueError msg_new_cat)
  /\ transform color_fitted (PyFrame (color_frame_out color_rows))
     <> transform color_fitted (PyFrame (color_frame color_rows)).
Proof.
  assert (H2 : transform color_fitted (PyFrame (color_frame_out color_rows))
               = Raise (ValueError msg_new_cat)) by (vm_compute; reflexivity).
  split; [exact fit_color|]. split; [exact transform_color|]. split; [exact H2|].
  rewrite H2, transform_color. discriminate.
Qed.

(** C4 as stated fails.  The column 'flag' (3 yes, 1 no) has dtype
    'category' and the walk leaves no candidate, so its recorded sparse set
    is empty; [transform] nevertheless adds 'Other' to its domain. *)
Lemma no_sparse_set_domain_grows :
  fit (PyFrame flag_frame) default_grouper = (Ok tt, flag_fitted)
  /\ sparse_candidates thresh_default flag_column = Ok []
  /\ imp_cats_ flag_fitted = Some {[ "flag" := [] ]}
  /\ transform flag_fitted (PyFrame flag_frame) = Ok flag_frame_out
  /\ map categories (columns flag_frame) = [Some [no; yes]]
  /\ map categories (columns flag_frame_out) = [Some [no; yes; other]]
  /\ map categories (columns flag_frame_out) <> map categories (columns flag_frame).
Proof.
  split; [exact fit_flag|]. split; [by vm_compute|]. split; [done|].
  split; [exact transform_flag|]. split; [done|]. split; [done|]. discriminate.
Qed.

(** C7 as stated fails.  In both datasets below the selected column 'kind'
    has dtype 'category' and a domain that contains 'Other'.  After a [fit]
    with an unknown method no sparse set is recorded and [transform] raises
    [KeyError] on [self.imp_cats_['kind']]; after a [fit] with method 'freq'
    on a dataset that also had the categorical column 'size', [transform]
    of a dataset without 'size' raises [KeyError] on [X_new['size']].
    Neither raises the [ValueError] about [new_cat]. *)
Lemma sentinel_collision_key_error :
  lookup_col (columns kinds_only_frame) "kind" = Some kind_column
  /\ categories kind_column = Some [other; LStr "a"]
  /\ (fit (PyFrame kinds_only_frame) count_grouper = (Ok tt, count_fitted)
      /\ cat_cols_ count_fitted = Some ["kind"]
      /\ new_cat count_fitted = other
      /\ transform count_fitted (PyFrame kinds_only_frame) = Raise (KeyError "kind"))
  /\ (fit (PyFrame kinds_frame) default_grouper = (Ok tt, kinds_fitted)
      /\ cat_cols_ kinds_fitted = Some ["size"; "kind"]
      /\ new_cat kinds_fitted = other
      /\ transform kinds_fitted (PyFrame kinds_only_frame) = Raise (KeyError "size")).
Proof.
  split; [done|]. split; [done|]. split.
  - split; [exact fit_count|]. split; [done|]. split; [done|]. by vm_compute.
  - split; [exact fit_kinds|]. split; [done|]. split; [done|]. by vm_compute.
Qed.

(** A [fit] that raises in the walk has already created both attributes: a
    column of text that is entirely missing has no frequencies at all, the
    walk raises [IndexError], and a later [transform] no longer reports an
    unfitted instance. *)
Example fit_raises_in_walk :
  let X := mkFrame [mkSeries "note" None [None; None]] 2 in
  let self := init "freq" thresh_default other (PyList ["note"]) PyNone in
  (fit (PyFrame X) self).1 = Raise (IndexError msg_iloc)
  /\ cat_cols_ (fit (PyFrame X) self).2 = Some ["note"]
  /\ imp_cats_ (fit (PyFrame X) self).2 = Some ∅
  /\ transform (fit (PyFrame X) self).2 (PyFrame X) = Raise (KeyError "note").
Proof. by vm_compute. Qed.

(** Frequencies are floats.  Ten values seen once each have frequency 0.1,
    and ten times 0.1 add up to 0.9999999999999999: with
    [percentile_thresh = 0] the walk is still below [1 - 0] after the last
    value and reads past the end. *)
Example fit_zero_threshold_rounding :
  (fit (PyFrame digit_frame) zero_grouper).1 = Raise (IndexError msg_iloc).
Proof. by vm_compute. Qed.

(** ** The theorems at concrete inputs *)

Lemma end_to_end_color_witness :
  color_rows ≡ₚ color_rows
  /\ fit (PyFrame (color_frame color_rows)) default_grouper = (Ok tt, color_fitted)
  /\ transform color_fitted (PyFrame (color_frame color_rows))
     = Ok (color_frame_out color_rows).
Proof.
  split; [reflexivity|].
  apply (end_to_end_color color_rows). reflexivity.
Defined.

Lemma sparse_set_minimum_size_witness :
  method default_grouper = "freq"
  /\ fit (PyFrame (color_frame color_rows)) default_grouper = (Ok tt, color_fitted)
  /\ exists cols d,
       cat_cols_ color_fitted = Some cols /\ imp_cats_ color_fitted = Some d /\
       forall col, col ∈ cols ->
         exists s cands,
           df_getitem (color_frame color_rows) col = Ok s
           /\ sparse_candidates (percentile_thresh default_grouper) s = Ok cands
           /\ ((length cands <= 1)%nat -> d !! col = Some [])
           /\ ((2 <= length cands)%nat -> d !! col = Some cands).
Proof.
  split; [reflexivity|]. split; [vm_compute; reflexivity|].
  apply (sparse_set_minimum_size default_grouper color_fitted (color_frame color_rows));
    [reflexivity|vm_compute; reflexivity].
Defined.

Lemma fit_selects_columns_witness :
  NoDup (col_names city_frame) /\ (0 < nrows city_frame)%nat
  /\ cat_cols_ (fit (PyFrame city_frame) city_grouper).2
     = Some (selected_columns city_frame (include_cols city_grouper)
               (exclude_cols city_grouper))
  /\ selected_columns city_frame (include_cols city_grouper) (exclude_cols city_grouper)
     = ["city"].
Proof.
  assert (Hnd : NoDup (col_names city_frame)) by compute_done.
  assert (Hn : (0 < nrows city_frame)%nat) by (simpl; lia).
  split; [exact Hnd|]. split; [exact Hn|]. split; [|vm_compute; reflexivity].
  apply (fit_selects_columns city_grouper city_frame Hnd Hn); discriminate.
Defined.

Lemma unknown_method_transform_raises_witness :
  method count_grouper <> "freq" /\ (0 < nrows kinds_only_frame)%nat
  /\ include_cols count_grouper <> PyNotList /\ exclude_cols count_grouper <> PyNotList
  /\ exists self' cols,
       fit (PyFrame kinds_only_frame) count_grouper = (Ok tt, self')
       /\ cat_cols_ self' = Some cols
       /\ imp_cats_ self' = Some ∅
       /\ forall col rest, cols = col :: rest ->
            forall X' : DataFrame,
              transform self' (PyFrame X') = Raise (KeyError col).
Proof.
  assert (Hm : method count_grouper <> "freq") by discriminate.
  assert (Hn : (0 < nrows kinds_only_frame)%nat) by (simpl; lia).
  assert (Hi : include_cols count_grouper <> PyNotList) by discriminate.
  assert (He : exclude_cols count_grouper <> PyNotList) by discriminate.
  split; [exact Hm|]. split; [exact Hn|]. split; [exact Hi|]. split; [exact He|].
  exact (unknown_method_transform_raises count_grouper kinds_only_frame Hm Hn Hi He).
Defined.

Lemma no_sparse_set_keeps_cells_witness :
  exists s s',
    lookup_col (columns flag_frame) "flag" = Some s
    /\ lookup_col (columns flag_frame_out) "flag" = Some s'
    /\ name s' = name s
    /\ values s' = values s
    /\ categories s' = (fun cats => cats ++ [new_cat default_grouper]) <$> categories s.
Proof.
  apply (no_sparse_set_keeps_cells default_grouper flag_fitted flag_frame flag_frame
           flag_frame_out ["flag"] "flag" flag_column []).
  - reflexivity.
  - vm_compute; reflexivity.
  - reflexivity.
  - apply list_elem_of_here.
  - reflexivity.
  - vm_compute; reflexivity.
  - simpl; lia.
  - vm_compute; reflexivity.
Defined.

Lemma domain_shrink_witness :
  exists s' dom',
    lookup_col (columns (color_frame_out color_rows)) "color" = Some s'
    /\ categories s' = Some dom'
    /\ dom' = filter (fun v => v ∉ [yellow; purple]) [blue; green; purple; red; yellow]
              ++ [new_cat color_fitted]
    /\ new_cat color_fitted ∈ dom'
    /\ forall v, v ∈ [yellow; purple] -> v ∉ dom'.
Proof.
  apply (domain_shrink color_fitted (color_frame color_rows)
           (color_frame_out color_rows) ["color"] {[ "color" := [yellow; purple] ]}
           "color" (color_column color_rows)).
  - reflexivity.
  - reflexivity.
  - apply list_elem_of_here.
  - vm_compute; reflexivity.
  - reflexivity.
  - reflexivity.
  - vm_compute; reflexivity.
Defined.

Lemma transform_twice_witness :
  transform city_fitted (PyFrame city_frame_out) = Ok city_frame_out
  /\ transform color_fitted (PyFrame (color_frame_out color_rows))
     = Raise (ValueError msg_new_cat).
Proof.
  split.
  - apply (transform_twice city_fitted city_frame city_frame_out ["city"]).
    + reflexivity.
    + vm_compute; reflexivity.
    + compute_done.
  - apply (transform_twice color_fitted (color_frame color_rows)
             (color_frame_out color_rows) ["color"]).
    + reflexivity.
    + vm_compute; reflexivity.
    + compute_done.
Defined.

Lemma sentinel_collision_witness :
  (forall X', transform kinds_fitted (PyFrame kinds_frame) <> Ok X')
  /\ transform kinds_fitted (PyFrame kinds_frame) = Raise (ValueError msg_new_cat).
Proof.
  assert (Hcol : "kind" ∈ ["size"; "kind"]) by (apply list_elem_of_further, list_elem_of_here).
  assert (Hnc : new_cat kinds_fitted ∈ [other; LStr "a"])
    by apply list_elem_of_here.
  destruct (sentinel_collision kinds_fitted kinds_frame ["size"; "kind"]
              {[ "size" := []; "kind" := [] ]} "kind" kind_column
              [other; LStr "a"]
              eq_refl eq_refl Hcol eq_refl eq_refl Hnc) as [Hnever Hraise].
  split; [exact Hnever|].
  apply (Hraise ["size"] [] [] kinds_frame_size_done).
  - reflexivity.
  - vm_compute; reflexivity.
  - vm_compute; reflexivity.
Defined.

Lemma threshold_monotone_witness :
  (0 <=? thresh_default)%float = true
  /\ (thresh_default <=? 0.25)%float = true
  /\ (0.25 <? 1)%float = true
  /\ exists self2 d1 d2,
       fit (PyFrame (color_frame color_rows)) (with_thresh 0.25 default_grouper)
       = (Ok tt, self2)
       /\ cat_cols_ self2 = cat_cols_ color_fitted
       /\ imp_cats_ color_fitted = Some d1 /\ imp_cats_ self2 = Some d2
       /\ forall col,
            match d1 !! col, d2 !! col with
            | Some l1, Some l2 => (length l1 <= length l2)%nat
            | None, None => True
            | _, _ => False
            end.
Proof.
  split; [reflexivity|]. split; [reflexivity|]. split; [reflexivity|].
  apply (threshold_monotone default_grouper color_fitted (color_frame color_rows)
           thresh_default 0.25%float).
  - reflexivity.
  - reflexivity.
  - reflexivity.
  - vm_compute; reflexivity.
Defined.

(** * Further properties of the code *)

(** ** [transform]: what it changes and what it keeps *)

Lemma replace_col_related (R : Series -> Series -> Prop) (cols : list Series)
    (col : string) (s s' : Series) :
  (forall a, R a a) ->
  lookup_col cols col = Some s -> R s s' ->
  Forall2 R cols (replace_col cols col s').
Proof.
  intros Hrefl Hl HR. induction cols as [|a cols IH]; [done|].
  simpl in *. case_decide.
  - inversion Hl; subst. constructor; [done|]. by apply Forall_Forall2_diag, Forall_forall.
  - constructor; [done|]. by apply IH.
Qed.

Lemma rewrite_column_values (imp : list label) (nc : label) (s s' : Series) :
  rewrite_column imp nc s = Ok s' ->
  name s' = name s
  /\ values s' = map (group_cell imp nc) (values s)
  /\ is_category s' = is_category s.
Proof.
  rewrite rewrite_column_eq. unfold is_category.
  destruct (categories s) eqn:Hc; repeat case_decide; inversion 1; subst; simpl;
    by rewrite ?Hc.
Qed.

Lemma transform_loop_shape (d : gmap string (list label)) (nc : label)
    (all cols : list string) (X X' : DataFrame) :
  (forall col, col ∈ cols -> col ∈ all) ->
  transform_loop d nc cols X = Ok X' ->
  Forall2 (same_shape all) (columns X) (columns X') /\ nrows X' = nrows X.
Proof.
  revert X. induction cols as [|c cols IH]; intros X Hsub.
  - simpl. inversion 1; subst. split; [|done].
    apply Forall_Forall2_diag, Forall_forall. by intros s _.
  - simpl. rewrite transform_col_eq.
    destruct (lookup_col (columns X) c) as [s|] eqn:Hs; [|done].
    destruct (d !! c) as [imp|]; [|done].
    destruct (rewrite_column imp nc s) as [s1|e] eqn:Hrw; [|done].
    simpl. intros Hloop. apply IH in Hloop as [Hcols Hn];
      [|intros col Hcol; apply Hsub; by right].
    split; [|done].
    apply rewrite_column_values in Hrw as (Hname & Hvals & Hcat).
    pose proof (lookup_col_name _ _ _ Hs) as Hc.
    assert (Hstep : Forall2 (same_shape all) (columns X) (replace_col (columns X) c s1)).
    { apply replace_col_related with s; [by intros a|done|].
      repeat split; [done| |done|].
      - by rewrite Hvals, length_map.
      - intros Hnot. exfalso. apply Hnot. rewrite Hc. apply Hsub. by left. }
    clear -Hstep Hcols. simpl in Hcols.
    revert Hcols. generalize (columns X'). revert Hstep.
    generalize (replace_col (columns X) c s1). generalize (columns X).
    intros l1 l2 H12. induction H12 as [|a b l1 l2 Hab H12 IH];
      intros l3 H23; inversion H23; subst; constructor.
    + destruct Hab as (Hn1 & Hl1 & Hc1 & Hs1).
      match goal with H : same_shape all b _ |- _ =>
        destruct H as (Hn2 & Hl2 & Hc2 & Hs2) end.
      repeat split; [congruence..|].
      intros Hnot. rewrite Hs2; [by apply Hs1|]. by rewrite Hn1.
    + by apply IH.
Qed.

(** X1. [transform] keeps the shape of the dataset.  Whenever it returns, the
    output has the input's columns under the same names and in the same
    order, the same number of rows and of cells per column; a column is
    categorical in the output exactly when it is in the input; and every
    column that is not selected is identical to the input's. *)
Theorem transform_keeps_shape (self : CategoricalGrouper) (X X' : DataFrame)
    (cols : list string) :
  cat_cols_ self = Some cols ->
  transform self (PyFrame X) = Ok X' ->
  nrows X' = nrows X
  /\ col_names X' = col_names X
  /\ Forall2
       (fun s s' =>
          name s' = name s
          /\ length (values s') = length (values s)
          /\ is_category s' = is_category s
          /\ (name s ∉ cols -> s' = s))
       (columns X) (columns X').
Proof.
  intros Hcols Htr.
  destruct (transform_ok_inv _ _ _ Htr) as (cols' & d & X0 & Hcc & Hd & HX & Hloop).
  inversion HX; subst X0. rewrite Hcols in Hcc. inversion Hcc; subst cols'.
  apply (transform_loop_shape d (new_cat self) cols) in Hloop as [Hshape Hn]; [|done].
  split; [done|]. split; [|exact Hshape].
  unfold col_names. clear -Hshape.
  induction Hshape as [|s s' l l' (Hname & _) _ IH]; [done|].
  simpl. by rewrite Hname, IH.
Qed.

(** X2. What [transform] writes.  Whenever it returns, every selected column
    holds, cell by cell, the input's cells with [new_cat] in place of each
    value recorded as sparse for that column; a cell holding any other
    value, or missing (NaN), is the input's. *)
Theorem transform_rewrites_cells (self : CategoricalGrouper) (X X' : DataFrame)
    (cols : list string) (d : gmap string (list label)) (col : string) :
  cat_cols_ self = Some cols -> imp_cats_ self = Some d ->
  col ∈ cols ->
  transform self (PyFrame X) = Ok X' ->
  exists s s' imp,
    lookup_col (columns X) col = Some s
    /\ lookup_col (columns X') col = Some s'
    /\ d !! col = Some imp
    /\ forall i c,
         values s !! i = Some c ->
         values s' !! i
         = Some match c with
                | Some v => if decide (v ∈ imp) then Some (new_cat self) else Some v
                | None => None
                end.
Proof.
  intros Hcols Hd Hcol Htr.
  rewrite (transform_fitted_eq _ _ _ _ Hcols Hd) in Htr.
  apply transform_loop_ok in Htr as [_ Hsel].
  destruct (Hsel _ Hcol) as (s & imp & s' & Hs & Himp & Hrw & Hs').
  exists s, s', imp. split; [done|]. split; [done|]. split; [done|].
  apply rewrite_column_values in Hrw as (_ & Hvals & _).
  intros i c Hi. rewrite Hvals.
  pose proof (list_lookup_fmap (group_cell imp (new_cat self)) (values s) i) as Hl.
  unfold cell in *. rewrite Hi in Hl. simpl in Hl. etrans; [exact Hl|]. f_equal.
  unfold group_cell, isin. destruct c as [v|]; [|done].
  by destruct (decide (v ∈ imp)); [rewrite bool_decide_eq_true_2|rewrite bool_decide_eq_false_2].
Qed.

(** X3. A selected column that the dataset lacks.  [transform] then returns
    no dataset; it raises [KeyError] on that column as soon as the columns
    selected before it are rewritten without an exception. *)
Theorem transform_missing_column (self : CategoricalGrouper) (X : DataFrame)
    (cols : list string) (d : gmap string (list label)) (col : string) :
  cat_cols_ self = Some cols -> imp_cats_ self = Some d ->
  col ∈ cols -> lookup_col (columns X) col = None ->
  (forall X', transform self (PyFrame X) <> Ok X')
  /\ (forall pre post Xp,
        cols = pre ++ col :: post ->
        transform_loop d (new_cat self) pre X = Ok Xp ->
        transform self (PyFrame X) = Raise (KeyError col)).
Proof.
  intros Hcols Hd Hcol Hnone.
  assert (Hnever : forall cols0 X', col ∈ cols0 ->
            transform_loop d (new_cat self) cols0 X <> Ok X').
  { intros cols0 X' Hin Hloop. apply transform_loop_ok in Hloop as [_ Hsel].
    destruct (Hsel _ Hin) as (s0 & _ & _ & Hs0 & _). congruence. }
  rewrite (transform_fitted_eq _ _ _ _ Hcols Hd). split.
  - intros X'. by apply Hnever.
  - intros pre post Xp -> Hpre.
    rewrite transform_loop_app, Hpre. cbn [rbind transform_loop].
    rewrite transform_col_eq.
    destruct (decide (col ∈ pre)) as [Hin|Hout]; [by apply Hnever in Hpre|].
    apply transform_loop_ok in Hpre as [Hsame _].
    by rewrite (Hsame _ Hout), Hnone.
Qed.


(** ** The cumulative walk *)

Lemma running_sum_0 (tracker : float) (freqs : list float) :
  running_sum tracker freqs 0 = tracker.
Proof. unfold running_sum. by rewrite take_0. Qed.

Lemma running_sum_S (tracker f : float) (freqs : list float) (k : nat) :
  running_sum tracker (f :: freqs) (S k) = running_sum (tracker + f) freqs k.
Proof. done. Qed.

Lemma walk_ok_iff (limit : float) (rest : list float) (tracker : float) (i n : nat) :
  walk limit rest tracker i = Ok n <->
  exists k,
    n = (i + k)%nat /\ (k <= length rest)%nat
    /\ (running_sum tracker rest k <? limit)%float = false
    /\ forall j, (j < k)%nat -> (running_sum tracker rest j <? limit)%float = true.
Proof.
  revert tracker i. induction rest as [|f rest IH]; intros tracker i; simpl;
    destruct (tracker <? limit)%float eqn:Hlt.
  - split; [done|]. intros (k & _ & Hk & Hstop & _).
    assert (k = 0)%nat as -> by (simpl in Hk; lia).
    rewrite running_sum_0 in Hstop. congruence.
  - split.
    + inversion 1; subst. exists 0%nat. rewrite running_sum_0.
      repeat split; [lia|simpl; lia|done|lia].
    + intros (k & -> & Hk & _). simpl in Hk. f_equal. lia.
  - rewrite IH. split.
    + intros (k & -> & Hk & Hstop & Hbelow). exists (S k).
      repeat split; [lia|simpl; lia|done|].
      intros [|j] Hj; [by rewrite running_sum_0|].
      rewrite running_sum_S. apply Hbelow. lia.
    + intros (k & -> & Hk & Hstop & Hbelow). destruct k as [|k].
      { rewrite running_sum_0 in Hstop. congruence. }
      exists k. repeat split; [lia|simpl in Hk; lia|done|].
      intros j Hj. rewrite <- running_sum_S. apply Hbelow. lia.
  - split.
    + inversion 1; subst. exists 0%nat. rewrite running_sum_0.
      repeat split; [lia|simpl; lia|done|lia].
    + intros (k & -> & Hk & Hstop & Hbelow). destruct k as [|k]; [f_equal; lia|].
      specialize (Hbelow 0%nat). rewrite running_sum_0 in Hbelow.
      rewrite Hbelow in Hlt by lia. done.
Qed.

Lemma walk_raise_iff (limit : float) (rest : list float) (tracker : float) (i : nat) :
  walk limit rest tracker i = Raise (IndexError msg_iloc) <->
  forall j, (j <= length rest)%nat -> (running_sum tracker rest j <? limit)%float = true.
Proof.
  revert tracker i. induction rest as [|f rest IH]; intros tracker i; simpl;
    destruct (tracker <? limit)%float eqn:Hlt.
  - split; [|done]. intros _ j Hj. assert (j = 0)%nat as -> by lia.
    by rewrite running_sum_0.
  - split; [done|]. intros Hall. specialize (Hall 0%nat).
    rewrite running_sum_0, Hlt in Hall. discriminate Hall. simpl. lia.
  - rewrite IH. split.
    + intros Hall [|j] Hj; [by rewrite running_sum_0|].
      rewrite running_sum_S. apply Hall. lia.
    + intros Hall j Hj. rewrite <- running_sum_S. apply Hall. lia.
  - split; [done|]. intros Hall. specialize (Hall 0%nat).
    rewrite running_sum_0, Hlt in Hall. discriminate Hall. simpl. lia.
Qed.

(** X5. Where the walk stops.  The walk of [fit] returns [n] exactly when
    the first [n] frequencies are the shortest prefix whose running float
    sum is not below the limit: the sum after [n] additions is not below it
    and the sum after every smaller number of additions is.  It raises
    [IndexError] exactly when the running sum is below the limit after every
    number of additions, that of all frequencies included. *)
Theorem walk_stops_at_shortest_prefix (limit : float) (freqs : list float) :
  (forall n,
     walk limit freqs 0%float 0 = Ok n <->
     (n <= length freqs)%nat
     /\ (running_sum 0 freqs n <? limit)%float = false
     /\ forall j, (j < n)%nat -> (running_sum 0 freqs j <? limit)%float = true)
  /\ (walk limit freqs 0%float 0 = Raise (IndexError msg_iloc) <->
      forall j, (j <= length freqs)%nat ->
                (running_sum 0 freqs j <? limit)%float = true).
Proof.
  split; [|apply walk_raise_iff].
  intros n. rewrite walk_ok_iff. split.
  - intros (k & -> & Hk & Hstop & Hbelow). done.
  - intros (Hn & Hstop & Hbelow). by exists n.
Qed.

(** ** [fit]: how it ends *)

Lemma lookup_col_is_Some (cols : list Series) (col : string) :
  col ∈ map name cols <-> is_Some (lookup_col cols col).
Proof.
  induction cols as [|s cols IH]; simpl.
  - split; [by intros ?%elem_of_nil|by intros [? ?]].
  - rewrite elem_of_cons. case_decide as Hn.
    + split; [by eexists|]. by left.
    + rewrite <- IH. split; [|by right]. intros [->|]; done.
Qed.

Lemma cat_cols_selection_raise (X : DataFrame) (include exclude : py_list_arg) (e : exn) :
  _cat_cols_selection X include exclude = Raise e -> exists msg, e = AssertionError msg.
Proof.
  unfold _cat_cols_selection.
  destruct include, exclude; simpl; inversion 1; by eexists.
Qed.

(** The selection is made of column names of the dataset, in the order of
    the dataset, and of no excluded name. *)
Lemma cat_cols_selection_sublist (X : DataFrame) (include exclude : py_list_arg)
    (cols : list string) :
  _cat_cols_selection X include exclude = Ok cols ->
  cols `sublist_of` col_names X /\ forall col, col ∈ cols -> ~ listed exclude col.
Proof.
  unfold _cat_cols_selection, select_dtypes_category, col_names.
  assert (Hcat : map name (filter (fun s => is_category s = true) (columns X))
                 `sublist_of` map name (columns X)).
  { apply fmap_sublist, sublist_filter. }
  destruct include as [|inc|]; simpl; [| |done];
    destruct exclude as [|exc|]; simpl; inversion 1; subst.
  - split; [done|]. by intros col _ [].
  - split.
    + etrans; [apply sublist_filter|done].
    + intros col Hcol. by apply list_elem_of_filter in Hcol as [? _].
  - split; [apply sublist_filter|]. by intros col _ [].
  - split.
    + etrans; [apply sublist_filter|apply sublist_filter].
    + intros col Hcol. by apply list_elem_of_filter in Hcol as [? _].
Qed.

(** The loop of [fit] over columns of the dataset: it ends normally or by
    the [IndexError] of the walk, and [imp_cats_] stays a dictionary. *)
Lemma fit_loop_outcomes (X : DataFrame) (cols : list string)
    (self : CategoricalGrouper) (d : gmap string (list label)) :
  (forall col, col ∈ cols -> col ∈ col_names X) ->
  imp_cats_ self = Some d ->
  let out := for_each (fit_col X) cols self in
  (out.1 = Ok tt \/ out.1 = Raise (IndexError msg_iloc))
  /\ is_Some (imp_cats_ out.2).
Proof.
  revert self d. induction cols as [|c cols IH]; intros self d Hsub Hd; simpl.
  - split; [by left|by rewrite Hd].
  - unfold mbind. rewrite fit_col_eq.
    assert (Hc : is_Some (lookup_col (columns X) c)).
    { apply lookup_col_is_Some, Hsub. by left. }
    unfold df_getitem. destruct Hc as [s ->].
    destruct (sparse_candidates _ s) as [cands|e] eqn:Hw.
    + rewrite Hd. eapply IH; [|done]. intros col Hcol. apply Hsub. by right.
    + apply sparse_candidates_raise in Hw as ->. simpl. split; [by right|by rewrite Hd].
Qed.




(** X8. The fit result does not depend on an earlier fit.  Two instances
    with the same constructor arguments, whatever they were fitted on
    before, are left in the same state by [fit] on the same dataset, unless
    [fit] is refused by an assertion (which changes nothing). *)
Theorem refit_replaces (a b a' : CategoricalGrouper) (X : py_frame_arg)
    (r : result unit) :
  same_config a b ->
  fit X a = (r, a') ->
  (forall msg, r <> Raise (AssertionError msg)) ->
  fit X b = (r, a').
Proof.
  intros (Hm & Ht & Hnc & Hi & He) Hfit Hnot.
  destruct X as [X|]; [|inversion Hfit; subst; by destruct (Hnot msg_frame)].
  destruct (Nat.ltb_spec 0 (nrows X)) as [Hn|Hn].
  - rewrite (fit_frame_eq _ _ Hn) in Hfit. rewrite (fit_frame_eq _ _ Hn).
    rewrite <- Hm, <- Hi, <- He. revert Hfit.
    destruct (_cat_cols_selection X _ _) as [cols|e] eqn:Hsel.
    + cbv zeta.
      replace (update_imp_cats_ ∅ (update_cat_cols_ cols b))
        with (update_imp_cats_ ∅ (update_cat_cols_ cols a)); [done|].
      unfold update_imp_cats_, update_cat_cols_. simpl. congruence.
    + apply cat_cols_selection_raise in Hsel as [msg ->].
      inversion 1; subst. by destruct (Hnot msg).
  - revert Hfit. unfold fit, mbind, lift, py_assert.
    replace (0 <? nrows X)%nat with false by (symmetry; apply Nat.ltb_ge; lia).
    inversion 1; subst. by destruct (Hnot msg_empty).
Qed.

(** X20. The assertions of [fit], in their order.  [fit] raises an
    [AssertionError] exactly in these cases, with these messages: the
    argument is no DataFrame; else the dataset has no row; else
    [include_cols] is given and is no list; else [exclude_cols] is given and
    is no list.  An earlier failure hides the later ones. *)
Theorem fit_assertions (X : py_frame_arg) (self : CategoricalGrouper) (msg : string) :
  (fit X self).1 = Raise (AssertionError msg) <->
  match X with
  | PyNotFrame => msg = msg_frame
  | PyFrame X =>
      if (0 <? nrows X)%nat
      then (include_cols self = PyNotList /\ msg = msg_include)
           \/ (include_cols self <> PyNotList /\ exclude_cols self = PyNotList
               /\ msg = msg_exclude)
      else msg = msg_empty
  end.
Proof.
  destruct X as [X|]; [|simpl; split; [by inversion 1|by intros ->]].
  destruct (Nat.ltb_spec 0 (nrows X)) as [Hn|Hn].
  - rewrite (fit_frame_eq _ _ Hn).
    destruct (_cat_cols_selection X _ _) as [cols|e] eqn:Hsel.
    + assert (Hlists : include_cols self <> PyNotList /\ exclude_cols self <> PyNotList).
      { unfold _cat_cols_selection in Hsel.
        destruct (include_cols self), (exclude_cols self); done. }
      split; [|intros [[? _]|(_ & ? & _)]; by destruct Hlists].
      cbv zeta. destruct (decide (method self = "freq")); [|done].
      pose proof (fit_loop_outcomes X cols
                    (update_imp_cats_ ∅ (update_cat_cols_ cols self)) ∅) as [Hr _];
        [|done|].
      { intros col Hcol. apply cat_cols_selection_sublist in Hsel as [Hsub _].
        by apply (sublist_subseteq _ _ Hsub). }
      intros Hraise. rewrite Hraise in Hr. by destruct Hr.
    + simpl. unfold _cat_cols_selection in Hsel.
      destruct (include_cols self) eqn:Hi, (exclude_cols self) eqn:He;
        simpl in Hsel; inversion Hsel; subst e;
        (split; [inversion 1; first [by left|right; by repeat split]|]);
        intros [[? ->]|(? & ? & ->)]; done.
  - unfold fit, mbind, lift, py_assert.
    replace (0 <? nrows X)%nat with false by (symmetry; apply Nat.ltb_ge; lia).
    simpl. split; [by inversion 1|by intros ->].
Qed.

(** ** [fit]: which values it records *)

Lemma insert_desc_perm (x : label * nat) (l : list (label * nat)) :
  insert_desc x l ≡ₚ x :: l.
Proof.
  induction l as [|y l IH]; [done|]. simpl.
  destruct (snd x <? snd y)%nat; [|done].
  rewrite IH. apply Permutation_swap.
Qed.

Lemma sort_desc_perm (l : list (label * nat)) : sort_desc l ≡ₚ l.
Proof.
  induction l as [|x l IH]; [done|].
  unfold sort_desc in *. simpl. by rewrite insert_desc_perm, IH.
Qed.

Lemma insert_desc_sorted (x : label * nat) (l : list (label * nat)) :
  sorted_desc l -> sorted_desc (insert_desc x l).
Proof.
  induction l as [|y l IH]; simpl; [done|].
  intros [Hy Hl]. destruct (Nat.ltb_spec (snd x) (snd y)) as [Hlt|Hge]; simpl.
  - split; [|by apply IH].
    rewrite insert_desc_perm. constructor; [lia|done].
  - split; [|done]. constructor; [done|].
    eapply Forall_impl; [exact Hy|]. simpl. intros; lia.
Qed.

Lemma sort_desc_sorted (l : list (label * nat)) : sorted_desc (sort_desc l).
Proof.
  induction l as [|x l IH]; [done|]. by apply insert_desc_sorted.
Qed.

Lemma sorted_desc_app (l1 l2 : list (label * nat)) (a b : label * nat) :
  sorted_desc (l1 ++ l2) -> a ∈ l1 -> b ∈ l2 -> (snd b <= snd a)%nat.
Proof.
  induction l1 as [|x l1 IH]; simpl; [by intros _ ?%elem_of_nil|].
  intros [Hx Hs] Ha Hb. apply elem_of_cons in Ha as [->|Ha]; [|by apply IH].
  rewrite Forall_forall in Hx. apply Hx, elem_of_app. by right.
Qed.

Lemma elem_of_pd_unique (v : label) (vals : list cell) :
  v ∈ pd_unique vals <-> Some v ∈ vals.
Proof.
  induction vals as [|[w|] vals IH]; simpl.
  - by rewrite !elem_of_nil.
  - rewrite !elem_of_cons, list_elem_of_filter, IH.
    destruct (decide (v = w)) as [->|Hne]; [tauto|].
    split; [intros [?|[_ ?]]; tauto|]. intros [[=]|?]; tauto.
  - rewrite elem_of_cons, IH. split; [tauto|]. by intros [[=]|?].
Qed.

Lemma NoDup_pd_unique (vals : list cell) : NoDup (pd_unique vals).
Proof.
  induction vals as [|[w|] vals IH]; simpl; [constructor| |done].
  constructor; [|by apply NoDup_filter].
  rewrite list_elem_of_filter. tauto.
Qed.

(** [value_counts]: the counted keys, each with its number of cells, in
    descending order of that number. *)
Lemma value_counts_spec (s : Series) :
  map fst (value_counts s) ≡ₚ counted_keys s
  /\ sorted_desc (value_counts s)
  /\ Forall (fun p => snd p = count_value (fst p) (values s)) (value_counts s).
Proof.
  unfold value_counts. split; [|split].
  - rewrite sort_desc_perm.
    change (map fst (map ?f ?l)) with (fst <$> (f <$> l)).
    rewrite <- list_fmap_compose. simpl.
    by rewrite list_fmap_id.
  - apply sort_desc_sorted.
  - rewrite sort_desc_perm. apply Forall_forall. intros p Hp.
    apply list_elem_of_fmap in Hp as (v & -> & _). done.
Qed.

Lemma value_counts_normalize_keys (s : Series) :
  map fst (value_counts_normalize s) = map fst (value_counts s).
Proof.
  unfold value_counts_normalize. cbv zeta.
  generalize (float_of_nat (sum_list (map snd (value_counts s)))). intros total.
  induction (value_counts s) as [|p l IH]; [done|]. simpl. by rewrite IH.
Qed.

(** The candidates are what is left of the ordered keys after the walk. *)
Lemma sparse_candidates_inv (t : float) (s : Series) (cands : list label) :
  sparse_candidates t s = Ok cands ->
  exists i,
    walk (1 - t) (map snd (value_counts_normalize s)) 0%float 0 = Ok i
    /\ cands = map fst (drop i (value_counts s)).
Proof.
  unfold sparse_candidates.
  destruct (walk _ _ _ _) as [i|e] eqn:Hw; [|done]. simpl. inversion 1; subst.
  exists i. split; [done|].
  rewrite value_counts_normalize_keys.
  change (map fst ?l) with (fst <$> l). by rewrite fmap_drop.
Qed.

(** What [fit] recorded for a column, read back from a returned [fit]. *)
Lemma fit_recorded (self self' : CategoricalGrouper) (X : DataFrame)
    (d : gmap string (list label)) (col : string) (imp : list label) :
  method self = "freq" ->
  fit (PyFrame X) self = (Ok tt, self') ->
  imp_cats_ self' = Some d -> d !! col = Some imp ->
  exists cols s cands,
    cat_cols_ self' = Some cols /\ col ∈ cols
    /\ lookup_col (columns X) col = Some s
    /\ sparse_candidates (percentile_thresh self) s = Ok cands
    /\ imp = recorded_sparse cands.
Proof.
  intros Hm Hfit Hd Himp.
  destruct (fit_freq_ok _ _ _ Hm Hfit)
    as (cols & d' & _ & Hcc & Hd' & _ & Hin & Hout).
  rewrite Hd in Hd'. inversion Hd'; subst d'.
  destruct (decide (col ∈ cols)) as [Hcol|Hcol]; [|rewrite (Hout _ Hcol) in Himp; done].
  destruct (Hin _ Hcol) as (s & cands & Hs & Hc & Hrec).
  exists cols, s, cands. split; [done|]. split; [done|].
  unfold df_getitem in Hs. destruct (lookup_col _ _) as [s'|]; [|done].
  inversion Hs; subst. split; [done|]. split; [done|]. congruence.
Qed.

Lemma recorded_sparse_elem (cands : list label) (v : label) :
  v ∈ recorded_sparse cands -> v ∈ cands.
Proof.
  unfold recorded_sparse. destruct (1 <? length cands)%nat; [done|].
  by intros ?%elem_of_nil.
Qed.

(** X9. The keys of [imp_cats_].  When [fit] with method 'freq' returns, the
    dictionary has an entry for exactly the selected columns; these are
    column names of the fitted dataset, in the dataset's order, and none of
    them is listed in [exclude_cols]. *)
Theorem fit_records_selected_columns (self self' : CategoricalGrouper)
    (X : DataFrame) :
  method self = "freq" ->
  fit (PyFrame X) self = (Ok tt, self') ->
  exists cols d,
    cat_cols_ self' = Some cols /\ imp_cats_ self' = Some d
    /\ (forall col, is_Some (d !! col) <-> col ∈ cols)
    /\ cols `sublist_of` col_names X
    /\ forall col, col ∈ cols -> ~ listed (exclude_cols self) col.
Proof.
  intros Hm Hfit.
  destruct (fit_freq_ok _ _ _ Hm Hfit)
    as (cols & d & Hsel & Hcc & Hd & _ & Hin & Hout).
  exists cols, d. split; [done|]. split; [done|].
  apply cat_cols_selection_sublist in Hsel as [Hsub Hexc].
  split; [|done]. intros col. split.
  - intros [imp Himp]. destruct (decide (col ∈ cols)) as [|Hcol]; [done|].
    by rewrite (Hout _ Hcol) in Himp.
  - intros Hcol. destruct (Hin _ Hcol) as (_ & cands & _ & _ & ->). by eexists.
Qed.

(** X10. Sparse values are the rarest.  When [fit] with method 'freq'
    returns, a value recorded as sparse for a column occurs in the fitted
    column no more often than any counted value of that column that was not
    recorded. *)
Theorem sparse_values_are_rarest (self self' : CategoricalGrouper) (X : DataFrame)
    (d : gmap string (list label)) (col : string) (s : Series) (imp : list label) :
  method self = "freq" ->
  fit (PyFrame X) self = (Ok tt, self') ->
  imp_cats_ self' = Some d -> d !! col = Some imp ->
  lookup_col (columns X) col = Some s ->
  forall v w,
    v ∈ imp -> w ∈ counted_keys s -> w ∉ imp ->
    (count_value v (values s) <= count_value w (values s))%nat.
Proof.
  intros Hm Hfit Hd Himp Hs v w Hv Hw Hnw.
  destruct (fit_recorded _ _ _ _ _ _ Hm Hfit Hd Himp)
    as (cols & s' & cands & _ & _ & Hs' & Hc & ->).
  assert (s' = s) as -> by congruence.
  assert (Hrec : recorded_sparse cands = cands).
  { unfold recorded_sparse in *. destruct (1 <? length cands)%nat; [done|].
    by apply elem_of_nil in Hv. }
  rewrite Hrec in *.
  apply sparse_candidates_inv in Hc as (i & _ & ->).
  destruct (value_counts_spec s) as (Hperm & Hsorted & Hcount).
  rewrite Forall_forall in Hcount.
  apply list_elem_of_fmap in Hv as (pv & -> & Hpv).
  rewrite <- Hperm in Hw. apply list_elem_of_fmap in Hw as (pw & -> & Hpw).
  rewrite <- (take_drop i (value_counts s)) in Hpw, Hsorted.
  apply elem_of_app in Hpw as [Hpw|Hpw].
  - rewrite <- (Hcount pv), <- (Hcount pw).
    + by apply (sorted_desc_app _ _ _ _ Hsorted).
    + rewrite <- (take_drop i (value_counts s)). apply elem_of_app. by left.
    + rewrite <- (take_drop i (value_counts s)). apply elem_of_app. by right.
  - exfalso. apply Hnw. by apply list_elem_of_fmap_2.
Qed.

(** X11. Sparse values come from the column.  When [fit] with method 'freq'
    returns, every value recorded as sparse for a column is one of the
    column's counted keys.  For a column that is not categorical the
    recorded values are distinct and each occurs in at least one cell of
    the fitted column. *)
Theorem sparse_values_observed (self self' : CategoricalGrouper) (X : DataFrame)
    (d : gmap string (list label)) (col : string) (s : Series) (imp : list label) :
  method self = "freq" ->
  fit (PyFrame X) self = (Ok tt, self') ->
  imp_cats_ self' = Some d -> d !! col = Some imp ->
  lookup_col (columns X) col = Some s ->
  (forall v, v ∈ imp -> v ∈ counted_keys s)
  /\ (categories s = None ->
      NoDup imp /\ forall v, v ∈ imp -> Some v ∈ values s).
Proof.
  intros Hm Hfit Hd Himp Hs.
  destruct (fit_recorded _ _ _ _ _ _ Hm Hfit Hd Himp)
    as (cols & s' & cands & _ & _ & Hs' & Hc & ->).
  assert (s' = s) as -> by congruence.
  apply sparse_candidates_inv in Hc as (i & _ & ->).
  destruct (value_counts_spec s) as (Hperm & _ & _).
  assert (Hsub : map fst (drop i (value_counts s)) `sublist_of` map fst (value_counts s)).
  { apply fmap_sublist, sublist_drop. }
  assert (Hkeys : forall v, v ∈ recorded_sparse (map fst (drop i (value_counts s))) ->
            v ∈ counted_keys s).
  { intros v Hv%recorded_sparse_elem. rewrite <- Hperm.
    by apply (sublist_subseteq _ _ Hsub). }
  split; [done|]. intros Hcat.
  unfold counted_keys in *. rewrite Hcat in *. split.
  - unfold recorded_sparse. destruct (1 <? _)%nat; [|constructor].
    eapply sublist_NoDup; [|exact Hsub]. rewrite Hperm. apply NoDup_pd_unique.
  - intros v Hv. by apply elem_of_pd_unique, Hkeys.
Qed.

(** X12. A most frequent value is never grouped.  With a threshold in
    [[0, 1)], when [fit] with method 'freq' returns, each fitted column whose
    counted keys are distinct has a counted value that occurs at least as
    often as every other one and is not recorded as sparse. *)
Theorem most_frequent_value_kept (self self' : CategoricalGrouper) (X : DataFrame)
    (d : gmap string (list label)) (col : string) (s : Series) (imp : list label) :
  method self = "freq" ->
  (0 <=? percentile_thresh self)%float = true ->
  (percentile_thresh self <? 1)%float = true ->
  fit (PyFrame X) self = (Ok tt, self') ->
  imp_cats_ self' = Some d -> d !! col = Some imp ->
  lookup_col (columns X) col = Some s ->
  NoDup (counted_keys s) ->
  exists w,
    w ∈ counted_keys s /\ (w ∉ imp)
    /\ forall v, v ∈ counted_keys s ->
                 (count_value v (values s) <= count_value w (values s))%nat.
Proof.
  intros Hm H0 H1 Hfit Hd Himp Hs Hnd.
  destruct (fit_recorded _ _ _ _ _ _ Hm Hfit Hd Himp)
    as (cols & s' & cands & _ & _ & Hs' & Hc & ->).
  assert (s' = s) as -> by congruence.
  apply sparse_candidates_inv in Hc as (i & Hw & ->).
  apply walk_ok_iff in Hw as (k & -> & Hk & Hstop & _).
  pose proof (Binary64.limit_positive _ H0 H1) as Hpos.
  destruct k as [|k]; [rewrite running_sum_0 in Hstop; congruence|].
  unfold value_counts_normalize in Hk. cbv zeta in Hk. rewrite !length_map in Hk.
  destruct (value_counts_spec s) as (Hperm & Hsorted & Hcount).
  destruct (value_counts s) as [|p rest]; [simpl in Hk; lia|].
  rewrite <- Hperm in Hnd. simpl in Hnd, Hsorted. destruct Hsorted as [Hmax _].
  apply NoDup_cons in Hnd as [Hp _].
  rewrite Forall_forall in Hmax. rewrite Forall_forall in Hcount.
  exists (fst p). split; [|split].
  - rewrite <- Hperm. by left.
  - intros Hin%recorded_sparse_elem. simpl in Hin. apply Hp.
    apply list_elem_of_fmap in Hin as (q & -> & Hq).
    apply list_elem_of_fmap_2. by apply (sublist_subseteq _ _ (sublist_drop rest k)).
  - intros v Hv. rewrite <- Hperm in Hv. simpl in Hv.
    apply elem_of_cons in Hv as [->|Hv]; [done|].
    apply list_elem_of_fmap in Hv as (q & -> & Hq).
    rewrite <- (Hcount p), <- (Hcount q); [by apply Hmax|by right|by left].
Qed.



(** ** [transform]: when it returns *)

Lemma rewrite_column_returns (imp : list label) (nc : label) (s : Series) :
  is_Ok (rewrite_column imp nc s) <->
  forall cats, categories s = Some cats -> (nc ∉ cats) /\ nc ∉ imp.
Proof.
  rewrite rewrite_column_eq. unfold is_Ok.
  destruct (categories s) as [cats|].
  - destruct (decide (nc ∈ cats)) as [Hc|Hc].
    + split; [by intros [? ?]|]. intros Hall. by destruct (Hall cats eq_refl).
    + destruct (decide (nc ∈ imp)) as [Hi|Hi].
      * split; [by intros [? ?]|]. intros Hall. by destruct (Hall cats eq_refl).
      * split; [|by eexists]. intros _ cats'. by inversion 1; subst.
  - split; [done|]. by eexists.
Qed.

Lemma transform_loop_returns (d : gmap string (list label)) (nc : label)
    (cols : list string) (X : DataFrame) :
  NoDup cols ->
  (forall col, col ∈ cols ->
     exists s imp, lookup_col (columns X) col = Some s /\ d !! col = Some imp
                   /\ is_Ok (rewrite_column imp nc s)) ->
  is_Ok (transform_loop d nc cols X).
Proof.
  revert X. induction cols as [|c cols IH]; intros X Hnd Hall.
  - by eexists.
  - apply NoDup_cons in Hnd as [Hc Hnd].
    destruct (Hall c) as (s & imp & Hs & Himp & [s1 Hrw]); [by left|].
    simpl. rewrite transform_col_eq, Hs, Himp, Hrw. simpl.
    apply IH; [done|]. intros col Hcol.
    destruct (Hall col) as (s2 & imp2 & Hs2 & Himp2 & Hrw2); [by right|].
    exists s2, imp2. split; [|done]. simpl.
    rewrite lookup_replace_ne; [done| |].
    + intros ->. done.
    + rewrite (rewrite_column_name _ _ _ _ Hrw). by eapply lookup_col_name.
Qed.


(** X15. [fit] then [transform] on the same dataset.  Let the dataset have
    distinct column names and let [fit] with method 'freq' return on it.
    Then [transform] of the same dataset returns exactly when no selected
    categorical column has [new_cat] in its domain. *)
Theorem fit_then_transform_returns (self self' : CategoricalGrouper) (X : DataFrame)
    (cols : list string) :
  method self = "freq" -> NoDup (col_names X) ->
  fit (PyFrame X) self = (Ok tt, self') ->
  cat_cols_ self' = Some cols ->
  is_Ok (transform self' (PyFrame X)) <->
  forall col s cats,
    col ∈ cols -> lookup_col (columns X) col = Some s ->
    categories s = Some cats -> new_cat self ∉ cats.
Proof.
  intros Hm Hnd Hfit Hcols.
  destruct (fit_freq_ok _ _ _ Hm Hfit)
    as (cols' & d & Hsel & Hcc & Hd & (_ & _ & Hnc & _) & Hin & _).
  rewrite Hcols in Hcc. inversion Hcc; subst cols'.
  rewrite (transform_fitted_eq _ _ _ _ Hcols Hd), <- Hnc. split.
  - intros [X' Hloop] col s cats Hcol Hs Hcat.
    apply transform_loop_ok in Hloop as [_ Hall].
    destruct (Hall _ Hcol) as (s0 & imp & s' & Hs0 & _ & Hrw & _).
    assert (s0 = s) as -> by congruence.
    assert (Hok : is_Ok (rewrite_column imp (new_cat self) s)) by by exists s'.
    rewrite rewrite_column_returns in Hok. by destruct (Hok _ Hcat).
  - intros Hall. apply transform_loop_returns.
    + apply cat_cols_selection_sublist in Hsel as [Hsub _].
      by eapply sublist_NoDup.
    + intros col Hcol. destruct (Hin _ Hcol) as (s & cands & Hs & Hc & Hrec).
      unfold df_getitem in Hs. destruct (lookup_col (columns X) col) as [s0|] eqn:Hl; [|done].
      inversion Hs; subst s0.
      exists s, (recorded_sparse cands). split; [done|]. split; [done|].
      apply rewrite_column_returns. intros cats Hcat.
      split; [by eapply Hall|].
      intros Hv%recorded_sparse_elem.
      apply sparse_candidates_inv in Hc as (i & _ & ->).
      destruct (value_counts_spec s) as (Hperm & _ & _).
      apply (Hall _ _ _ Hcol Hl Hcat).
      replace cats with (counted_keys s) by (unfold counted_keys; by rewrite Hcat).
      rewrite <- Hperm.
      apply list_elem_of_fmap in Hv as (q & -> & Hq).
      apply list_elem_of_fmap_2.
      by apply (sublist_subseteq _ _ (sublist_drop (value_counts s) i)).
Qed.

(** ** [ColumnSelector.transform] *)


Lemma filter_name_absent (l : list Series) (n : string) :
  n ∉ map name l -> filter (fun s => name s = n) l = [].
Proof.
  induction l as [|a l IH]; [done|]. simpl. intros Hn.
  apply not_elem_of_cons in Hn as [Hne Hn].
  rewrite filter_cons, decide_False by done. by apply IH.
Qed.

(** Under distinct column names a name selects one column. *)
Lemma filter_name_unique (l : list Series) (n : string) :
  NoDup (map name l) -> n ∈ map name l ->
  exists s, filter (fun s => name s = n) l = [s] /\ name s = n.
Proof.
  induction l as [|a l IH]; simpl; [by intros _ ?%elem_of_nil|].
  intros [Ha Hnd]%NoDup_cons Hn. rewrite filter_cons.
  destruct (decide (name a = n)) as [<-|Hne].
  - exists a. by rewrite filter_name_absent.
  - apply elem_of_cons in Hn as [->|Hn]; [done|]. by apply IH.
Qed.

Lemma filter_name_other (l : list Series) (n m : string) :
  n <> m ->
  filter (fun s => name s = m) (filter (fun s => name s = n) l) = [].
Proof.
  intros Hne. induction l as [|a l IH]; [done|].
  rewrite filter_cons. case_decide as Ha; [|done].
  rewrite filter_cons, decide_False; [done|congruence].
Qed.

Lemma filter_name_same (l : list Series) (m : string) :
  filter (fun s => name s = m) (filter (fun s => name s = m) l)
  = filter (fun s => name s = m) l.
Proof.
  induction l as [|a l IH]; [done|].
  rewrite filter_cons. case_decide as Ha; [|done].
  by rewrite filter_cons, decide_True, IH.
Qed.

(** Selecting by [m] among the columns selected by distinct [names]. *)
Lemma filter_name_concat (l : list Series) (names : list string) (m : string) :
  NoDup names -> m ∈ names ->
  filter (fun s => name s = m)
    (concat (map (fun n => filter (fun s => name s = n) l) names))
  = filter (fun s => name s = m) l.
Proof.
  assert (Hnone : forall names, m ∉ names ->
            filter (fun s => name s = m)
              (concat (map (fun n => filter (fun s => name s = n) l) names)) = []).
  { intros ns. induction ns as [|n ns IH]; [done|].
    intros [Hne Hm]%not_elem_of_cons. simpl.
    rewrite filter_app, filter_name_other, IH; done. }
  induction names as [|n names IH]; [by intros _ ?%elem_of_nil|].
  intros [Hn Hnd]%NoDup_cons Hm. simpl. rewrite filter_app.
  destruct (decide (n = m)) as [->|Hne].
  - by rewrite filter_name_same, Hnone, app_nil_r.
  - apply elem_of_cons in Hm as [->|Hm]; [done|].
    by rewrite filter_name_other, IH.
Qed.

Lemma elem_of_selected (X : DataFrame) (names : list string) (s : Series) :
  s ∈ concat (map (columns_named X) names) <-> s ∈ columns X /\ name s ∈ names.
Proof.
  induction names as [|n names IH]; simpl.
  - rewrite !elem_of_nil. tauto.
  - rewrite elem_of_app, IH, elem_of_cons. unfold columns_named.
    rewrite list_elem_of_filter. split; [|intros [? [?|?]]; tauto].
    intros [[? ?]|[? ?]]; tauto.
Qed.

Lemma column_selector_eq (names : list string) (X : DataFrame) :
  column_selector_transform names (PyFrame X) =
  if decide (Forall (fun n => n ∈ col_names X) names)
  then Selected (mkFrame (concat (map (columns_named X) names)) (nrows X))
  else SelectorRaise (SelectorKeyError (missing_columns names X)).
Proof.
  unfold column_selector_transform, df_getitem_list. by case_decide.
Qed.

(** X16. What [ColumnSelector.transform] returns.  When every requested name
    is a column of the dataset, the call returns a dataset on the same rows
    whose columns are exactly the input's columns that bear a requested
    name; under distinct column names its columns are named as requested,
    in the order of the request. *)
Theorem column_selector_returns (names : list string) (X : DataFrame) :
  Forall (fun n => n ∈ col_names X) names ->
  exists X',
    column_selector_transform names (PyFrame X) = Selected X'
    /\ nrows X' = nrows X
    /\ (forall s, s ∈ columns X' <-> s ∈ columns X /\ name s ∈ names)
    /\ (NoDup (col_names X) -> col_names X' = names).
Proof.
  intros Hall. rewrite column_selector_eq, decide_True by done.
  eexists. split; [done|]. split; [done|]. split.
  - intros s. apply elem_of_selected.
  - intros Hnd. unfold col_names. simpl.
    induction Hall as [|n names Hn _ IH]; [done|]. simpl.
    destruct (filter_name_unique _ _ Hnd Hn) as (s & Hs & Hname).
    unfold columns_named at 1. rewrite Hs. simpl. by rewrite Hname, IH.
Qed.

(** X17. The [KeyError] of [ColumnSelector.transform].  On a dataset the
    call raises nothing but that [KeyError], and only when a requested name
    is missing; the names it reports are exactly the requested names that
    are not columns of the dataset, and there is at least one. *)
Theorem column_selector_key_error (names : list string) (X : DataFrame)
    (e : selector_exn) :
  column_selector_transform names (PyFrame X) = SelectorRaise e ->
  exists missing,
    e = SelectorKeyError missing
    /\ (exists n, n ∈ missing)
    /\ forall n, n ∈ missing <-> n ∈ names /\ n ∉ col_names X.
Proof.
  rewrite column_selector_eq. case_decide as Hall; [done|].
  inversion 1; subst. eexists. split; [done|].
  assert (Hmem : forall n, n ∈ missing_columns names X <->
                           n ∈ names /\ n ∉ col_names X).
  { intros n. unfold missing_columns.
    by rewrite elem_of_difference, !elem_of_list_to_set. }
  split; [|done].
  apply not_Forall_Exists in Hall; [|apply _].
  apply Exists_exists in Hall as (n & Hn & Hnot).
  exists n. by apply Hmem.
Qed.

(** X18. Selecting twice.  After a selection by distinct names, selecting
    some of those names from the result gives what selecting them from the
    original dataset gives. *)
Theorem column_selector_compose (names1 names2 : list string) (X X1 : DataFrame) :
  NoDup names1 -> names2 ⊆ names1 ->
  column_selector_transform names1 (PyFrame X) = Selected X1 ->
  column_selector_transform names2 (PyFrame X1)
  = column_selector_transform names2 (PyFrame X).
Proof.
  intros Hnd Hsub. rewrite !column_selector_eq.
  case_decide as Hall1; [|done]. inversion 1; subst X1.
  rewrite Forall_forall in Hall1.
  assert (Hcols : forall m, m ∈ names2 ->
            columns_named
              (mkFrame (concat (map (columns_named X) names1)) (nrows X)) m
            = columns_named X m).
  { intros m Hm. unfold columns_named. simpl.
    apply filter_name_concat; [done|]. by apply Hsub. }
  rewrite !decide_True.
  - f_equal. f_equal. simpl. f_equal.
    apply map_ext_in. intros m Hm. apply Hcols. by apply list_elem_of_In.
  - apply Forall_forall. intros m Hm. apply Hall1. by apply Hsub.
  - apply Forall_forall. intros m Hm. unfold col_names. simpl.
    assert (Hin : m ∈ col_names X) by by apply Hall1, Hsub.
    apply list_elem_of_fmap in Hin as (s & -> & Hs).
    apply list_elem_of_fmap_2, elem_of_selected. split; [done|]. by apply Hsub.
Qed.

(** X19. Selecting every column.  On a dataset with distinct column names,
    selecting all of its names, in its order, returns the dataset itself. *)
Theorem column_selector_all (X : DataFrame) :
  NoDup (col_names X) ->
  column_selector_transform (col_names X) (PyFrame X) = Selected X.
Proof.
  intros Hnd. rewrite column_selector_eq, decide_True by by apply Forall_forall.
  destruct X as [l r]. unfold col_names, columns_named in *. simpl in *.
  f_equal. f_equal.
  induction l as [|a l IH]; [done|]. simpl in *.
  apply NoDup_cons in Hnd as [Ha Hnd].
  rewrite filter_cons, decide_True by done.
  rewrite filter_name_absent by done. simpl. f_equal.
  rewrite <- (IH Hnd) at 2. f_equal.
  apply map_ext_in. intros n Hn%list_elem_of_In.
  rewrite filter_cons, decide_False; [done|]. by intros <-.
Qed.

(** ** The further properties at concrete inputs *)

Lemma transform_keeps_shape_witness :
  nrows city_frame_out = nrows city_frame
  /\ col_names city_frame_out = col_names city_frame
  /\ Forall2
       (fun s s' =>
          name s' = name s
          /\ length (values s') = length (values s)
          /\ is_category s' = is_category s
          /\ (name s ∉ ["city"] -> s' = s))
       (columns city_frame) (columns city_frame_out).
Proof.
  apply (transform_keeps_shape city_fitted city_frame city_frame_out ["city"]).
  - reflexivity.
  - vm_compute; reflexivity.
Defined.

Lemma transform_rewrites_cells_witness :
  exists s s' imp,
    lookup_col (columns city_frame) "city" = Some s
    /\ lookup_col (columns city_frame_out) "city" = Some s'
    /\ ({[ "city" := [LStr "Oslo"; LStr "Lima"] ]} : gmap string (list label)) !! "city"
       = Some imp
    /\ forall i c,
         values s !! i = Some c ->
         values s' !! i
         = Some match c with
                | Some v => if decide (v ∈ imp) then Some (new_cat city_fitted) else Some v
                | None => None
                end.
Proof.
  apply (transform_rewrites_cells city_fitted city_frame city_frame_out ["city"]).
  - reflexivity.
  - reflexivity.
  - apply list_elem_of_here.
  - vm_compute; reflexivity.
Defined.

Lemma transform_missing_column_witness :
  (forall X', transform kinds_fitted (PyFrame kinds_only_frame) <> Ok X')
  /\ transform kinds_fitted (PyFrame kinds_only_frame) = Raise (KeyError "size").
Proof.
  destruct (transform_missing_column kinds_fitted kinds_only_frame ["size"; "kind"]
              {[ "size" := []; "kind" := [] ]} "size"
              eq_refl eq_refl (list_elem_of_here _ _) eq_refl) as [Hnever Hraise].
  split; [exact Hnever|].
  apply (Hraise [] ["kind"] kinds_only_frame); reflexivity.
Defined.




Lemma refit_replaces_witness :
  same_config default_grouper flag_fitted
  /\ fit (PyFrame (color_frame color_rows)) flag_fitted = (Ok tt, color_fitted).
Proof.
  assert (Hcfg : same_config default_grouper flag_fitted) by (repeat split).
  split; [exact Hcfg|].
  apply (refit_replaces default_grouper flag_fitted color_fitted
           (PyFrame (color_frame color_rows)) (Ok tt) Hcfg).
  - vm_compute; reflexivity.
  - discriminate.
Defined.

Lemma fit_records_selected_columns_witness :
  exists cols d,
    cat_cols_ city_fitted = Some cols /\ imp_cats_ city_fitted = Some d
    /\ (forall col, is_Some (d !! col) <-> col ∈ cols)
    /\ cols `sublist_of` col_names city_frame
    /\ forall col, col ∈ cols -> ~ listed (exclude_cols city_grouper) col.
Proof.
  apply (fit_records_selected_columns city_grouper city_fitted city_frame).
  - reflexivity.
  - vm_compute; reflexivity.
Defined.

Lemma sparse_values_are_rarest_witness :
  (count_value purple (values (color_column color_rows))
   <= count_value green (values (color_column color_rows)))%nat.
Proof.
  apply (sparse_values_are_rarest default_grouper color_fitted (color_frame color_rows)
           {[ "color" := [yellow; purple] ]} "color" (color_column color_rows)
           [yellow; purple]).
  - reflexivity.
  - vm_compute; reflexivity.
  - reflexivity.
  - reflexivity.
  - reflexivity.
  - compute_done.
  - compute_done.
  - compute_done.
Defined.

Lemma sparse_values_observed_witness :
  (forall v, v ∈ [LStr "Oslo"; LStr "Lima"] ->
             v ∈ counted_keys (mkSeries "city" None city_rows))
  /\ (categories (mkSeries "city" None city_rows) = None ->
      NoDup [LStr "Oslo"; LStr "Lima"]
      /\ forall v, v ∈ [LStr "Oslo"; LStr "Lima"] ->
                   Some v ∈ values (mkSeries "city" None city_rows)).
Proof.
  apply (sparse_values_observed city_grouper city_fitted city_frame
           {[ "city" := [LStr "Oslo"; LStr "Lima"] ]} "city").
  - reflexivity.
  - vm_compute; reflexivity.
  - reflexivity.
  - reflexivity.
  - reflexivity.
Defined.

Lemma most_frequent_value_kept_witness :
  exists w,
    w ∈ counted_keys (color_column color_rows) /\ (w ∉ [yellow; purple])
    /\ forall v, v ∈ counted_keys (color_column color_rows) ->
                 (count_value v (values (color_column color_rows))
                  <= count_value w (values (color_column color_rows)))%nat.
Proof.
  apply (most_frequent_value_kept default_grouper color_fitted (color_frame color_rows)
           {[ "color" := [yellow; purple] ]} "color").
  - reflexivity.
  - reflexivity.
  - reflexivity.
  - vm_compute; reflexivity.
  - reflexivity.
  - reflexivity.
  - reflexivity.
  - compute_done.
Defined.



Lemma fit_then_transform_returns_witness :
  is_Ok (transform color_fitted (PyFrame (color_frame color_rows))) <->
  forall col s cats,
    col ∈ ["color"] -> lookup_col (columns (color_frame color_rows)) col = Some s ->
    categories s = Some cats -> new_cat default_grouper ∉ cats.
Proof.
  apply (fit_then_transform_returns default_grouper color_fitted
           (color_frame color_rows) ["color"]).
  - reflexivity.
  - compute_done.
  - vm_compute; reflexivity.
  - reflexivity.
Defined.

Lemma column_selector_returns_witness :
  exists X',
    column_selector_transform ["city"] (PyFrame city_frame) = Selected X'
    /\ nrows X' = nrows city_frame
    /\ (forall s, s ∈ columns X' <-> s ∈ columns city_frame /\ name s ∈ ["city"])
    /\ (NoDup (col_names city_frame) -> col_names X' = ["city"]).
Proof.
  apply (column_selector_returns ["city"] city_frame).
  apply Forall_cons. split; [compute_done|apply Forall_nil_2].
Defined.

Lemma column_selector_key_error_witness :
  exists missing,
    SelectorKeyError (missing_columns ["city"; "town"] city_frame)
    = SelectorKeyError missing
    /\ (exists n, n ∈ missing)
    /\ forall n, n ∈ missing <-> n ∈ ["city"; "town"] /\ n ∉ col_names city_frame.
Proof.
  apply (column_selector_key_error ["city"; "town"] city_frame).
  rewrite column_selector_eq. apply decide_False.
  intros Hall. apply Forall_cons in Hall as [_ Hall].
  apply Forall_cons in Hall as [Htown _]. revert Htown. compute_done.
Defined.

Lemma column_selector_compose_witness :
  column_selector_transform ["city"] (PyFrame city_frame_swapped)
  = column_selector_transform ["city"] (PyFrame city_frame).
Proof.
  apply (column_selector_compose ["flag"; "city"] ["city"] city_frame city_frame_swapped).
  - compute_done.
  - intros n Hn. apply list_elem_of_singleton in Hn as ->.
    apply list_elem_of_further, list_elem_of_here.
  - vm_compute; reflexivity.
Defined.

Lemma column_selector_all_witness :
  column_selector_transform (col_names city_frame) (PyFrame city_frame)
  = Selected city_frame.
Proof.
  apply (column_selector_all city_frame). compute_done.
Defined.
